(** * Verification of the dotfiles installer ([install/main.py])

    The installer walks the platform directory of the repository and, per
    file, either merges the file body into the destination (append mode),
    symlinks it (Linux, macOS) or copies it (Windows).

    This development embeds the script in Rocq:
    - Python [str] values are lists of Unicode code points ([list N]);
    - the filesystem is a finite map from absolute paths (lists of
      component names) to entries: regular files, directories, symlinks;
      symlinks are followed as the kernel follows them, with a bound on
      their number;
    - exceptions are an error type, and every function that touches the
      filesystem passes the filesystem explicitly and returns the new one;
    - what the script prints is not represented, except for the last
      message of [append_to_file] and of [install_dotfiles], which is the
      value they return here.

    Only files holding valid UTF-8 are represented: the content of a file
    is the sequence of code points of its bytes.  The last byte of a UTF-8
    file is 0x0A exactly when its last code point is U+000A, and the file
    has no byte exactly when it has no code point, which is how the size
    test and the binary read of the last byte in [append_to_file] are
    modelled.  Paths are absolute and free of [.] and [..]; the target of
    a symlink is an absolute path.  Errors of permission and of the device
    are not represented. *)

From stdpp Require Import gmap strings list fin_maps.
From Stdlib Require Import NArith Ascii.

Local Open Scope N_scope.

(** ** Python strings *)

Abbreviation str := (list N).

Definition LF : N := 10.
Definition CR : N := 13.

(** A string literal of the script, as code points. *)
Definition lit (s : string) : str := N_of_ascii <$> String.list_ascii_of_string s.

(** [str.isspace] on one code point: the Unicode whitespace of CPython
    (general category Zs, or bidirectional class WS, B or S). *)
Definition isspace (c : N) : bool :=
  ((9 <=? c) && (c <=? 13)) || ((28 <=? c) && (c <=? 32))
  || (c =? 133) || (c =? 160) || (c =? 5760)
  || ((8192 <=? c) && (c <=? 8202))
  || (c =? 8232) || (c =? 8233) || (c =? 8239) || (c =? 8287)
  || (c =? 12288).

(** The line boundaries of [str.splitlines]: LF, VT, FF, CR, FS, GS, RS,
    NEL, LINE SEPARATOR and PARAGRAPH SEPARATOR (CR LF counts once). *)
Definition is_linebreak (c : N) : bool :=
  ((10 <=? c) && (c <=? 13)) || ((28 <=? c) && (c <=? 30))
  || (c =? 133) || (c =? 8232) || (c =? 8233).

(** [s.splitlines()] *)
Fixpoint splitlines (s : str) : list str :=
  match s with
  | [] => []
  | c :: rest =>
      if is_linebreak c then
        [] :: match rest with
              | c' :: rest' =>
                  if (c =? CR) && (c' =? LF) then splitlines rest'
                  else splitlines rest
              | [] => []
              end
      else
        match splitlines rest with
        | [] => [[c]]
        | l :: ls => (c :: l) :: ls
        end
  end.

(** [s.split()]: the maximal runs of non-whitespace; [cur] is the run
    being read, most recent character first. *)
Fixpoint split_from (cur : str) (s : str) : list str :=
  match s with
  | [] => match cur with [] => [] | _ => [reverse cur] end
  | c :: rest =>
      if isspace c then
        match cur with
        | [] => split_from [] rest
        | _ => reverse cur :: split_from [] rest
        end
      else split_from (c :: cur) rest
  end.

Definition split (s : str) : list str := split_from [] s.

(** [sep.join(parts)] *)
Fixpoint join (sep : str) (parts : list str) : str :=
  match parts with
  | [] => []
  | [p] => p
  | p :: ps => p ++ sep ++ join sep ps
  end.

(** [s.strip()] *)
Fixpoint lstrip (s : str) : str :=
  match s with
  | [] => []
  | c :: rest => if isspace c then lstrip rest else s
  end.

Definition strip (s : str) : str := reverse (lstrip (reverse (lstrip s))).

(** Truth value of a Python string: non-empty. *)
Definition truthy (s : str) : bool :=
  match s with [] => false | _ => true end.

(** [s.endswith("\n")] *)
Definition endswith_newline (s : str) : bool :=
  match last s with Some c => c =? LF | None => false end.

(** [needle in hay] on strings. *)
Fixpoint startswith (hay needle : str) {struct needle} : bool :=
  match needle, hay with
  | [], _ => true
  | _ :: _, [] => false
  | a :: needle', b :: hay' => (a =? b) && startswith hay' needle'
  end.

Fixpoint contains (needle hay : str) : bool :=
  startswith hay needle
  || match hay with
     | [] => false
     | _ :: hay' => contains needle hay'
     end.

(** ** Text-mode files

  The script opens its files in text mode with the default
  [newline=None]: on reading, CR LF and a lone CR become LF; on writing,
  LF becomes [os.linesep]. *)

Fixpoint universal_newlines (raw : str) : str :=
  match raw with
  | [] => []
  | c :: rest =>
      if c =? CR then
        LF :: match rest with
              | c' :: rest' =>
                  if c' =? LF then universal_newlines rest'
                  else universal_newlines rest
              | [] => []
              end
      else c :: universal_newlines rest
  end.

(** [os.linesep] of the host. *)
Inductive linesep := PosixNewline | WindowsNewline.

Definition os_linesep (nl : linesep) : str :=
  match nl with
  | PosixNewline => [LF]
  | WindowsNewline => [CR; LF]
  end.

Fixpoint translate_newlines (nl : linesep) (text : str) : str :=
  match text with
  | [] => []
  | c :: rest =>
      (if c =? LF then os_linesep nl else [c]) ++ translate_newlines nl rest
  end.

(** [f.readline()] followed by [f.read()] on decoded text: the first line
    with its newline, and what follows it. *)
Fixpoint readline (text : str) : str * str :=
  match text with
  | [] => ([], [])
  | c :: rest =>
      if c =? LF then ([LF], rest)
      else let '(line, after) := readline rest in (c :: line, after)
  end.

(** ** Exceptions *)

Inductive pyerr :=
  | FileNotFoundError
  | FileExistsError
  | NotADirectoryError
  | IsADirectoryError
  | SymlinkLoopError            (* OSError ELOOP, RuntimeError of Path.resolve *)
  | RmtreeOnSymlinkError        (* OSError of shutil.rmtree on a symlink *)
  | SameFileError
  | ValueError
  | EOFError
  | UnsupportedSystem (system : str).   (* Exception("Unsupported operating system: ...") *)

Inductive result (A : Type) :=
  | Ok (a : A)
  | Raise (e : pyerr).
Arguments Ok {A} a.
Arguments Raise {A} e.

#[export] Instance result_ret : MRet result := @Ok.
#[export] Instance result_bind : MBind result := λ A B f r,
  match r with
  | Ok a => f a
  | Raise e => Raise e
  end.

Definition succeeded {A} (r : result A) : bool :=
  match r with Ok _ => true | Raise _ => false end.

(** ** The filesystem

  A path is absolute: the list of its component names from the root.
  The root directory is the empty path and is not stored in the map. *)

Abbreviation path := (list string).

Inductive node :=
  | File (content : str)
  | Dir
  | Link (target : path).

Abbreviation FS := (gmap (list string) node).

Definition entry (fs : FS) (p : path) : option node :=
  match p with
  | [] => Some Dir
  | _ => fs !! p
  end.

(** [Path.parent]: the parent of the root is the root. *)
Definition parent (p : path) : path := removelast p.

(** The kernel gives up after this many symlinks in one resolution. *)
Definition MAXSYMLINKS : nat := 40.

(** Resolution of [rest] from the directory [cur], following every
    symlink, the last component included.  The last component may be
    missing: the result is then where it would be created. *)
Fixpoint walk (fuel : nat) (fs : FS) (cur rest : path) {struct fuel} : result path :=
  (fix go (cur rest : path) {struct rest} : result path :=
     match rest with
     | [] => Ok cur
     | name :: rest' =>
         match fs !! (cur ++ [name]) with
         | None =>
             match rest' with
             | [] => Ok (cur ++ [name])
             | _ => Raise FileNotFoundError
             end
         | Some (File _) =>
             match rest' with
             | [] => Ok (cur ++ [name])
             | _ => Raise NotADirectoryError
             end
         | Some Dir => go (cur ++ [name]) rest'
         | Some (Link t) =>
             match fuel with
             | O => Raise SymlinkLoopError
             | S fuel' => walk fuel' fs [] (t ++ rest')
             end
         end
     end) cur rest.

Definition realpath (fs : FS) (p : path) : result path :=
  walk MAXSYMLINKS fs [] p.

(** Resolution that does not follow the last component ([lstat],
    [unlink], [symlink], [mkdir]): the parent must be a directory. *)
Definition lrealpath (fs : FS) (p : path) : result path :=
  match last p with
  | None => Ok []
  | Some name =>
      d ← realpath fs (parent p);
      match entry fs d with
      | Some Dir => Ok (d ++ [name])
      | Some _ => Raise NotADirectoryError
      | None => Raise FileNotFoundError
      end
  end.

(** [os.stat] and [os.lstat], as the entry found. *)
Definition stat (fs : FS) (p : path) : result node :=
  r ← realpath fs p;
  match entry fs r with
  | Some n => Ok n
  | None => Raise FileNotFoundError
  end.

Definition lstat (fs : FS) (p : path) : result node :=
  r ← lrealpath fs p;
  match entry fs r with
  | Some n => Ok n
  | None => Raise FileNotFoundError
  end.

(** [Path.exists], [Path.is_file], [Path.is_dir], [Path.is_symlink]:
    any error of the underlying [stat] reads as [False]. *)
Definition exists_ (fs : FS) (p : path) : bool := succeeded (stat fs p).

Definition is_file (fs : FS) (p : path) : bool :=
  match stat fs p with Ok (File _) => true | _ => false end.

Definition is_dir (fs : FS) (p : path) : bool :=
  match stat fs p with Ok Dir => true | _ => false end.

Definition is_symlink (fs : FS) (p : path) : bool :=
  match lstat fs p with Ok (Link _) => true | _ => false end.

(** [Path.stat().st_size] of a regular file, in the model the number of
    code points; zero exactly when the file has no byte. *)
Definition st_size (fs : FS) (p : path) : result N :=
  n ← stat fs p;
  match n with
  | File c => Ok (N.of_nat (length c))
  | _ => Ok 0
  end.

(** ** Operations that change the filesystem *)

Definition M (A : Type) : Type := FS → FS * result A.

#[export] Instance M_ret : MRet M := λ A a fs, (fs, Ok a).
#[export] Instance M_bind : MBind M := λ A B f m fs,
  match m fs with
  | (fs', Ok a) => f a fs'
  | (fs', Raise e) => (fs', Raise e)
  end.

Definition raise {A} (e : pyerr) : M A := λ fs, (fs, Raise e).

(** A read of the filesystem that may raise. *)
Definition query {A} (f : FS → result A) : M A := λ fs, (fs, f fs).

(** A read of the filesystem that cannot raise. *)
Definition ask {A} (f : FS → A) : M A := λ fs, (fs, Ok (f fs)).

(** [os.mkdir] *)
Definition os_mkdir (p : path) : M unit := λ fs,
  match p with
  | [] => (fs, Raise FileExistsError)
  | _ =>
      match lrealpath fs p with
      | Raise e => (fs, Raise e)
      | Ok r =>
          match fs !! r with
          | Some _ => (fs, Raise FileExistsError)
          | None => (<[r := Dir]> fs, Ok ())
          end
      end
  end.

(** [Path.mkdir(parents=False, exist_ok=True)] *)
Definition mkdir_exist_ok (p : path) : M unit := λ fs,
  match os_mkdir p fs with
  | (fs', Ok u) => (fs', Ok u)
  | (fs', Raise FileNotFoundError) => (fs', Raise FileNotFoundError)
  | (fs', Raise e) => if is_dir fs' p then (fs', Ok ()) else (fs', Raise e)
  end.

(** [Path.mkdir(parents=True, exist_ok=True)]: pathlib tries the
    directory itself, on [FileNotFoundError] makes the parent the same way
    and tries again; [depth] bounds the recursion by the path length. *)
Fixpoint mkdir_parents_from (depth : nat) (p : path) : M unit := λ fs,
  match os_mkdir p fs with
  | (fs', Ok u) => (fs', Ok u)
  | (fs', Raise FileNotFoundError) =>
      match depth with
      | O => (fs', Raise FileNotFoundError)
      | S depth' =>
          if decide (parent p = p) then (fs', Raise FileNotFoundError)
          else (_ ← mkdir_parents_from depth' (parent p); mkdir_exist_ok p) fs'
      end
  | (fs', Raise e) => if is_dir fs' p then (fs', Ok ()) else (fs', Raise e)
  end.

Definition mkdir_parents (p : path) : M unit :=
  mkdir_parents_from (length p) p.

(** [open(p, "r")] or [open(p, "rb")] and reading everything: the raw
    content. *)
Definition open_read (fs : FS) (p : path) : result str :=
  r ← realpath fs p;
  match entry fs r with
  | Some (File c) => Ok c
  | Some Dir => Raise IsADirectoryError
  | Some (Link _) => Raise SymlinkLoopError
  | None => Raise FileNotFoundError
  end.

(** [open(p, "a")]: the file is created when missing; the handle is the
    resolved location of the file. *)
Definition open_append (p : path) : M path := λ fs,
  match realpath fs p with
  | Raise e => (fs, Raise e)
  | Ok r =>
      match entry fs r with
      | Some (File _) => (fs, Ok r)
      | Some Dir => (fs, Raise IsADirectoryError)
      | Some (Link _) => (fs, Raise SymlinkLoopError)
      | None => (<[r := File []]> fs, Ok r)
      end
  end.

(** [open(p, "wb")]: created when missing, emptied otherwise. *)
Definition open_truncate (p : path) : M path := λ fs,
  match realpath fs p with
  | Raise e => (fs, Raise e)
  | Ok r =>
      match entry fs r with
      | Some (File _) | None => (<[r := File []]> fs, Ok r)
      | Some Dir => (fs, Raise IsADirectoryError)
      | Some (Link _) => (fs, Raise SymlinkLoopError)
      end
  end.

Definition append_content (data : str) (n : node) : node :=
  match n with
  | File c => File (c ++ data)
  | _ => n
  end.

(** Writing to an open handle: the data lands at the end of the file. *)
Definition write_raw (handle : path) (data : str) : M unit := λ fs,
  (alter (append_content data) handle fs, Ok ()).

(** [f.write(text)] on a text-mode handle. *)
Definition write_text (nl : linesep) (handle : path) (text : str) : M unit :=
  write_raw handle (translate_newlines nl text).

(** [Path.unlink] *)
Definition unlink (p : path) : M unit := λ fs,
  match lrealpath fs p with
  | Raise e => (fs, Raise e)
  | Ok r =>
      match entry fs r with
      | Some (File _) | Some (Link _) => (delete r fs, Ok ())
      | Some Dir => (fs, Raise IsADirectoryError)
      | None => (fs, Raise FileNotFoundError)
      end
  end.

(** [shutil.rmtree]: the directory and everything below it. *)
Definition rmtree (p : path) : M unit := λ fs,
  match lrealpath fs p with
  | Raise e => (fs, Raise e)
  | Ok r =>
      match entry fs r with
      | Some Dir => (filter (λ kv, ¬ r `prefix_of` kv.1) fs, Ok ())
      | Some (Link _) => (fs, Raise RmtreeOnSymlinkError)
      | Some (File _) => (fs, Raise NotADirectoryError)
      | None => (fs, Raise FileNotFoundError)
      end
  end.

(** [os.symlink(target, p)] *)
Definition os_symlink (target p : path) : M unit := λ fs,
  match lrealpath fs p with
  | Raise e => (fs, Raise e)
  | Ok r =>
      match entry fs r with
      | Some _ => (fs, Raise FileExistsError)
      | None => (<[r := Link target]> fs, Ok ())
      end
  end.

(** [Path.resolve()] (not strict): symlinks are followed as far as the
    path exists and the remainder is kept as it is. *)
Fixpoint resolve_from (fuel : nat) (fs : FS) (cur rest : path) {struct fuel} : result path :=
  (fix go (cur rest : path) {struct rest} : result path :=
     match rest with
     | [] => Ok cur
     | name :: rest' =>
         match fs !! (cur ++ [name]) with
         | None | Some (File _) => Ok (cur ++ name :: rest')
         | Some Dir => go (cur ++ [name]) rest'
         | Some (Link t) =>
             match fuel with
             | O => Raise SymlinkLoopError
             | S fuel' => resolve_from fuel' fs [] (t ++ rest')
             end
         end
     end) cur rest.

Definition path_resolve (fs : FS) (p : path) : result path :=
  resolve_from MAXSYMLINKS fs [] p.

(** [os.path.samefile] as [shutil] uses it: false on any error. *)
Definition samefile (fs : FS) (p q : path) : bool :=
  match realpath fs p, realpath fs q with
  | Ok a, Ok b => bool_decide (a = b) && bool_decide (is_Some (entry fs a))
  | _, _ => false
  end.

(** [shutil.copy2(src, dst)]: into [dst] when it is a directory; the
    metadata that [copystat] carries over is not represented. *)
Definition shutil_copy2 (src dst : path) : M path :=
  isdir ← ask (λ fs, is_dir fs dst);
  let dst' := if (isdir : bool) then
                 match last src with Some base => dst ++ [base] | None => dst end
               else dst in
  same ← ask (λ fs, samefile fs src dst');
  if (same : bool) then raise SameFileError
  else
    data ← query (λ fs, open_read fs src);
    out ← open_truncate dst';
    _ ← write_raw out data;
    mret dst'.

(** ** The script *)

Definition APPEND_MODE_TARGET : str := lit ">>>append<<<".

Inductive OperatingSystem := Linux | MacOS | Windows.

(** The value of each member of the enumeration. *)
Definition value (os_name : OperatingSystem) : string :=
  match os_name with
  | Linux => "linux"
  | MacOS => "macos"
  | Windows => "windows"
  end.

(** What [append_to_file] prints last. *)
Inductive AppendReport :=
  | NothingToAppend          (* "Source file is empty (or only has header). Nothing to append." *)
  | UpToDate                 (* "Content already up-to-date" *)
  | Appended (count : nat).  (* "Appended {count} new line(s) successfully" *)

(** What [install_dotfiles] prints last. *)
Inductive InstallReport :=
  | AbortedByUser            (* "Installation aborted by user" *)
  | NoDotfilesFound          (* "No dotfiles found for ..." *)
  | InstallationComplete.    (* "Dotfiles installation complete!" *)

(** What the run takes from its host besides the filesystem. *)
Record Host := {
  platform_system : str;     (* platform.system() *)
  script_file : path;        (* __file__ *)
  home : path;               (* Path.home() *)
  host_linesep : linesep;    (* os.linesep *)
  stdin_line : option str;   (* the line input() reads; None at end of file *)
}.

(** [Path.relative_to] *)
Fixpoint relative_to (p base : path) : result path :=
  match base, p with
  | [], _ => Ok p
  | b :: base', c :: p' =>
      if decide (b = c) then relative_to p' base' else Raise ValueError
  | _ :: _, [] => Raise ValueError
  end.

(** A [for] loop whose body may raise. *)
Fixpoint for_each {A} (xs : list A) (body : A → M unit) : M unit :=
  match xs with
  | [] => mret ()
  | x :: xs' => _ ← body x; for_each xs' body
  end.

(** [read_file_content] *)
Definition read_file_content (fs : FS) (file_path : path)
    (skip_first_line : bool) : result str :=
  raw ← open_read fs file_path;
  let f := universal_newlines raw in
  Ok (if skip_first_line then (readline f).2 else f).

(** The loop of [append_to_file] that keeps the lines to write. *)
Definition lines_to_write (existing_lines_set : gset str)
    (source_lines : list str) : list str :=
  foldl (λ acc line,
           if decide (line ∉ existing_lines_set) then acc ++ [line] else acc)
        [] source_lines.

(** The lines of the source body that are not blank. *)
Definition source_lines_of (content_to_append : str) : list str :=
  filter (λ line, truthy (strip line)) (splitlines content_to_append).

(** [append_to_file] *)
Definition append_to_file (nl : linesep) (source destination : path)
    : M AppendReport :=
  _ ← mkdir_parents (parent destination);
  content_to_append ← query (λ fs, read_file_content fs source true);
  let source_lines := source_lines_of content_to_append in
  if bool_decide (source_lines = []) then mret NothingToAppend
  else
    present ← ask (λ fs, exists_ fs destination);
    existing_lines_set ←
      (if (present : bool) then
         existing_content ← query (λ fs, read_file_content fs destination false);
         mret (list_to_set (splitlines existing_content) : gset str)
       else mret ∅);
    let lines := lines_to_write existing_lines_set source_lines in
    if bool_decide (lines = []) then mret UpToDate
    else
      f ← open_append destination;
      present' ← ask (λ fs, exists_ fs destination);
      _ ← (if (present' : bool) then
             size ← query (λ fs, st_size fs destination);
             if 0 <? size then
               check ← query (λ fs, open_read fs destination);
               if decide (last check ≠ Some LF) then write_text nl f [LF]
               else mret ()
             else mret ()
           else mret ());
      _ ← write_text nl f (join [LF] lines);
      _ ← (if endswith_newline content_to_append then write_text nl f [LF]
           else mret ());
      mret (Appended (length lines)).

(** [create_symlink] *)
Definition create_symlink (source destination : path) (force : bool)
    : M unit :=
  _ ← mkdir_parents (parent destination);
  present ← ask (λ fs, exists_ fs destination);
  _ ← (if force && present then
         symlink_or_file ←
           ask (λ fs, is_symlink fs destination || is_file fs destination);
         if (symlink_or_file : bool) then unlink destination
         else
           directory ← ask (λ fs, is_dir fs destination);
           if (directory : bool) then rmtree destination else mret ()
       else mret ());
  target ← query (λ fs, path_resolve fs source);
  os_symlink target destination.

(** [copy_file] *)
Definition copy_file (source destination : path) : M unit :=
  _ ← mkdir_parents (parent destination);
  _ ← shutil_copy2 source destination;
  mret ().

Section Script.

(** [str.lower] comes from the Unicode tables of the interpreter and
    [Path.rglob] from the directory order of the host: the script is
    verified for any choice of the two. *)
Variable lower : str → str.
Variable rglob : FS → path → list path.

(** [detect_os], on the value of [platform.system()]. *)
Definition detect_os (platform_system : str) : result OperatingSystem :=
  let system := lower platform_system in
  if decide (system = lit "linux") then Ok Linux
  else if decide (system = lit "darwin") then Ok MacOS
  else if decide (system = lit "windows") then Ok Windows
  else Raise (UnsupportedSystem system).

(** [should_append] *)
Definition should_append (fs : FS) (file_path : path) : result bool :=
  raw ← open_read fs file_path;
  let first_line := (readline (universal_newlines raw)).1 in
  let processed_line := join [] (split (lower first_line)) in
  Ok (contains APPEND_MODE_TARGET processed_line).

(** The body of the loop of [install_dotfiles]. *)
Definition install_file (host : Host) (os_name : OperatingSystem)
    (os_dir source_file : path) : M unit :=
  regular ← ask (λ fs, is_file fs source_file);
  if (regular : bool) then
    rel_path ← query (λ _, relative_to source_file os_dir);
    let destination := home host ++ rel_path in
    append ← query (λ fs, should_append fs source_file);
    if (append : bool) then
      _ ← append_to_file (host_linesep host) source_file destination;
      mret ()
    else
      match os_name with
      | Linux | MacOS => create_symlink source_file destination true
      | Windows => copy_file source_file destination
      end
  else mret ().

(** [install_dotfiles]; the files of the tree are taken as [rglob]
    lists them when the loop starts. *)
Definition install_dotfiles (host : Host) (os_name : OperatingSystem)
    : M InstallReport :=
  let script_dir := parent (parent (script_file host)) in
  let os_dir := script_dir ++ [value os_name] in
  match stdin_line host with
  | None => raise EOFError
  | Some answer =>
      if decide (answer ≠ lit "y") then mret AbortedByUser
      else
        found ← ask (λ fs, exists_ fs os_dir);
        if negb found then mret NoDotfilesFound
        else
          files ← ask (λ fs, rglob fs os_dir);
          _ ← for_each files (install_file host os_name os_dir);
          mret InstallationComplete
  end.

(** [main] *)
Definition main (host : Host) : M InstallReport :=
  os_name ← query (λ _, detect_os (platform_system host));
  install_dotfiles host os_name.

End Script.

(** [str.lower] on ASCII text, where it only moves A-Z to a-z. *)
Definition ascii_lower (s : str) : str :=
  (λ c, if (65 <=? c) && (c <=? 90) then c + 32 else c) <$> s.

(** ** Notions used in the statements *)

(** What follows a line boundary [c]: the LF of a CR LF belongs to it. *)
Definition after_break (c : N) (s : str) : str :=
  match s with
  | c' :: s' => if (c =? CR) && (c' =? LF) then s' else s
  | [] => []
  end.

(** The first line of a file as the specification normalizes it. *)
Definition normalized_first_line (lower : str → str) (raw : str) : str :=
  filter (λ c, ¬ isspace c) (lower (readline (universal_newlines raw)).1).


(** The characters that [append_to_file] hands to [f.write], in order:
    the separating newline, the new lines, the final newline. *)
Definition written_text (old body : str) (lines : list str) : str :=
  (if decide (old ≠ [] ∧ last old ≠ Some LF) then [LF] else [])
  ++ join [LF] lines
  ++ (if endswith_newline body then [LF] else []).

(** The entry without its content: what resolution looks at. *)
Definition shape (n : node) : node :=
  match n with
  | File _ => File []
  | _ => n
  end.

(** [fs'] has every entry of [fs], up to the content of files. *)
Definition extends (fs fs' : FS) : Prop :=
  ∀ p n, fs !! p = Some n → ∃ n', fs' !! p = Some n' ∧ shape n' = shape n.

(** [fs'] is [fs] with new directories and nothing else changed. *)
Definition only_new_dirs (fs fs' : FS) : Prop :=
  ∀ p, fs' !! p = fs !! p ∨ (fs !! p = None ∧ fs' !! p = Some Dir).

Definition not_link (o : option node) : Prop := ∀ t, o ≠ Some (Link t).

(** Nothing of [fs] is lost in [fs']: every entry is still there, the
    directories and symlinks as they were, and a file holds its old
    content followed by what was appended to it. *)
Definition grows (fs fs' : FS) : Prop :=
  ∀ p n, fs !! p = Some n →
    match n with
    | File c => ∃ d, fs' !! p = Some (File (c ++ d))
    | _ => fs' !! p = Some n
    end.

(** Every run of [m] relates the filesystem it starts from to the one it
    ends with by [R], whether it returns or raises. *)
Definition preserves {A : Type} (R : FS → FS → Prop) (m : M A) : Prop :=
  ∀ fs fs' r, m fs = (fs', r) → R fs fs'.

(** Every component of [p] is a directory of [fs], none of them a
    symlink. *)
Definition plain_dir (fs : FS) (p : path) : Prop :=
  ∀ q, q `prefix_of` p → entry fs q = Some Dir.

(** ** Example hosts and filesystems *)

(** The repository at [/repo] and the home directory [/home/u]. *)
Definition repo_and_home : list (path * node) :=
  [ (["repo"], Dir); (["repo"; "install"], Dir);
    (["repo"; "linux"], Dir); (["repo"; "windows"], Dir);
    (["home"], Dir); (["home"; "u"], Dir) ].

Definition bashrc_source : path := ["repo"; "linux"; ".bashrc"].
Definition bashrc_destination : path := ["home"; "u"; ".bashrc"].

(** A source whose first line holds the marker after a comment sign. *)
Definition commented_marker_file : str :=
  lit "# >>> APPEND <<<" ++ [LF] ++ lit "export EDITOR=vi" ++ [LF].

Definition commented_marker_fs : FS :=
  list_to_map ((bashrc_source, File commented_marker_file) :: repo_and_home).



(** A destination that holds a line without final newline, and a source
    with that line and a new one. *)
Definition merge_source_file : str :=
  lit ">>> APPEND <<<" ++ [LF] ++ lit "export A=1" ++ [LF]
  ++ lit "alias ll=ls" ++ [LF].

Definition merge_fs : FS :=
  list_to_map ((bashrc_source, File merge_source_file)
               :: (bashrc_destination, File (lit "export A=1"))
               :: repo_and_home).

(** A source with the marker line, an empty line and a blank line. *)
Definition marker_only_file : str :=
  lit ">>> APPEND <<<" ++ [LF] ++ [LF] ++ lit "   " ++ [LF].

Definition config_source : path := ["repo"; "linux"; ".config"; "app"; "rc"].
Definition config_destination : path := ["home"; "u"; ".config"; "app"; "rc"].

Definition marker_only_fs : FS :=
  list_to_map ((["repo"; "linux"; ".config"], Dir)
               :: (["repo"; "linux"; ".config"; "app"], Dir)
               :: (config_source, File marker_only_file)
               :: repo_and_home).

(** The destination of the merge is a directory that holds a file. *)
Definition directory_destination_fs (source_content : str) : FS :=
  list_to_map ((bashrc_source, File source_content)
               :: (bashrc_destination, Dir)
               :: (bashrc_destination ++ ["kept"], File (lit "x"))
               :: repo_and_home).

(** A host whose user answers ["Y"] to the prompt. *)
Definition declining_host : Host :=
  {| platform_system := lit "Linux";
     script_file := ["repo"; "install"; "main.py"];
     home := ["home"; "u"];
     host_linesep := PosixNewline;
     stdin_line := Some (lit "Y") |}.

(** A host on a platform that the script does not know. *)
Definition unsupported_host : Host :=
  {| platform_system := lit "FreeBSD";
     script_file := ["repo"; "install"; "main.py"];
     home := ["home"; "u"];
     host_linesep := PosixNewline;
     stdin_line := Some (lit "y") |}.

Definition vimrc_source : path := ["repo"; "linux"; ".vimrc"].
Definition vimrc_destination : path := ["home"; "u"; ".vimrc"].
Definition vimrc_file : str := lit "set number" ++ [LF].

(** The destination is a symlink whose target does not exist. *)
Definition dangling_destination_fs : FS :=
  list_to_map ((vimrc_source, File vimrc_file)
               :: (vimrc_destination, Link ["home"; "u"; "old"; ".vimrc"])
               :: repo_and_home).

Definition windows_vimrc_source : path := ["repo"; "windows"; ".vimrc"].

(** The destination of the copy is a directory that holds a file. *)
Definition directory_at_copy_destination_fs : FS :=
  list_to_map ((windows_vimrc_source, File vimrc_file)
               :: (vimrc_destination, Dir)
               :: (vimrc_destination ++ ["colors.vim"], File (lit "hi"))
               :: repo_and_home).

(** * Examples of the string operations *)

Example splitlines_ex1 :
  splitlines (lit "ab" ++ [LF] ++ [LF] ++ lit "c" ++ [CR; LF] ++ lit "d" ++ [CR])
  = [lit "ab"; []; lit "c"; lit "d"].
Proof. reflexivity. Qed.

Example splitlines_ex2 : splitlines [LF] = [[]] ∧ splitlines [] = [].
Proof. split; reflexivity. Qed.

Example split_ex : split (lit "  >>> APPEND   <<< ") = [lit ">>>"; lit "APPEND"; lit "<<<"].
Proof. vm_compute. reflexivity. Qed.

Example strip_ex : strip (lit "  a b  ") = lit "a b" ∧ strip (lit "   ") = [].
Proof. split; vm_compute; reflexivity. Qed.

Example universal_newlines_ex :
  universal_newlines (lit "a" ++ [CR; LF] ++ lit "b" ++ [CR] ++ lit "c" ++ [LF])
  = lit "a" ++ [LF] ++ lit "b" ++ [LF] ++ lit "c" ++ [LF].
Proof. reflexivity. Qed.

(** * Facts about the string operations *)

Section StringFacts.

Implicit Types (s t l : str) (c : N).

(** Induction that also gives the property two characters ahead, for the
    functions that read CR LF as a unit. *)
Lemma str_ind2 (P : str → Prop) :
  P [] → (∀ c s, P s → P (tail s) → P (c :: s)) → ∀ s, P s.
Proof.
  intros Hnil Hcons s.
  enough (P s ∧ P (tail s)) by tauto.
  induction s as [|c s [IH1 IH2]]; simpl; auto.
Qed.

Lemma join_nil (parts : list str) : join [] parts = concat parts.
Proof.
  induction parts as [|p [|q ps] IH]; simpl in *.
  - done.
  - by rewrite app_nil_r.
  - by rewrite IH.
Qed.

Lemma split_from_concat cur s :
  concat (split_from cur s) = reverse cur ++ filter (λ c, ¬ isspace c) s.
Proof.
  revert cur. induction s as [|c s IH]; intros cur; simpl.
  - destruct cur; simpl; by rewrite ?app_nil_r.
  - destruct (isspace c) eqn:Hc.
    + rewrite filter_cons_False by (rewrite Hc; naive_solver).
      destruct cur; simpl; rewrite IH; by rewrite ?reverse_nil.
    + rewrite filter_cons_True by (rewrite Hc; naive_solver).
      rewrite IH, reverse_cons, <- app_assoc. done.
Qed.

(** Splitting on whitespace and joining with the empty string removes
    the whitespace and nothing else. *)
Lemma join_split s :
  join [] (split s) = filter (λ c, ¬ isspace c) s.
Proof. unfold split. by rewrite join_nil, split_from_concat. Qed.

Lemma startswith_spec hay needle :
  startswith hay needle = true ↔ ∃ post, hay = needle ++ post.
Proof.
  revert hay. induction needle as [|a needle IH]; intros hay; simpl.
  - split; [by exists hay | done].
  - destruct hay as [|b hay].
    + split; [done | intros [post Hp]; discriminate].
    + rewrite andb_true_iff, N.eqb_eq, IH. split.
      * intros [-> [post ->]]. eauto.
      * intros [post [= -> ->]]. eauto.
Qed.

Lemma contains_spec needle hay :
  contains needle hay = true ↔ ∃ pre post, hay = pre ++ needle ++ post.
Proof.
  induction hay as [|b hay IH]; simpl.
  - rewrite orb_false_r, startswith_spec. split.
    + intros [post ->]. by exists [], post.
    + intros ([|x pre] & post & Hp); [eauto | discriminate].
  - rewrite orb_true_iff, startswith_spec, IH. split.
    + intros [[post ->] | (pre & post & ->)].
      * by exists [], post.
      * by exists (b :: pre), post.
    + intros ([|x pre] & post & Hp); simpl in Hp.
      * left. eauto.
      * injection Hp as -> ->. right. eauto.
Qed.

Lemma splitlines_break c s :
  is_linebreak c = true →
  splitlines (c :: s) = [] :: splitlines (after_break c s).
Proof.
  intros Hc. simpl. rewrite Hc. destruct s as [|c' s']; simpl; [done|].
  by destruct ((c =? CR) && (c' =? LF)).
Qed.

Lemma splitlines_char c s :
  is_linebreak c = false →
  splitlines (c :: s) =
    match splitlines s with [] => [[c]] | l :: ls => (c :: l) :: ls end.
Proof. intros Hc. simpl. by rewrite Hc. Qed.

Lemma after_break_not_CR c s : c ≠ CR → after_break c s = s.
Proof.
  intros Hc. destruct s as [|c' s']; simpl; [done|].
  apply N.eqb_neq in Hc. by rewrite Hc.
Qed.

Lemma after_break_tail c s : after_break c s = s ∨ after_break c s = tail s.
Proof.
  destruct s as [|c' s']; simpl; [by left|].
  destruct ((c =? CR) && (c' =? LF)); auto.
Qed.

Lemma splitlines_nonempty s : s ≠ [] → splitlines s ≠ [].
Proof.
  destruct s as [|c s]; [done|]. intros _.
  destruct (is_linebreak c) eqn:Hc.
  - by rewrite splitlines_break.
  - rewrite splitlines_char by done. by destruct (splitlines s).
Qed.

Lemma after_break_cons c c' s :
  after_break c (c' :: s) = if (c =? CR) && (c' =? LF) then s else c' :: s.
Proof. done. Qed.

(** A complete line boundary LF cuts the text in two independent parts. *)
Lemma splitlines_app_LF s t :
  splitlines (s ++ LF :: t) = splitlines (s ++ [LF]) ++ splitlines t.
Proof.
  induction s as [|c s IH1 IH2] using str_ind2.
  - cbn [app]. rewrite !splitlines_break by done.
    by rewrite after_break_not_CR.
  - cbn [app]. destruct (is_linebreak c) eqn:Hc.
    + rewrite !splitlines_break by done.
      destruct s as [|c' s']; cbn [app tail] in *.
      * rewrite !after_break_cons.
        destruct ((c =? CR) && (LF =? LF)); [done|].
        rewrite !splitlines_break by done.
        by rewrite after_break_not_CR.
      * rewrite !after_break_cons.
        destruct ((c =? CR) && (c' =? LF)); cbn [app]; by f_equal.
    + rewrite !splitlines_char by done. rewrite IH1.
      pose proof (splitlines_nonempty (s ++ [LF])) as Hne.
      destruct (splitlines (s ++ [LF])); [|done].
      exfalso. apply Hne; [by destruct s | done].
Qed.

(** Appending a line boundary keeps the lines and may add an empty one. *)
Lemma splitlines_app_break s b :
  is_linebreak b = true →
  ∃ extra, splitlines (s ++ [b]) = splitlines s ++ extra.
Proof.
  intros Hb. induction s as [|c s IH1 IH2] using str_ind2.
  - exists [[]]. cbn [app]. by rewrite splitlines_break.
  - cbn [app]. destruct (is_linebreak c) eqn:Hc.
    + rewrite !splitlines_break by done.
      destruct s as [|c' s']; cbn [app tail] in *.
      * rewrite after_break_cons.
        destruct ((c =? CR) && (b =? LF)).
        -- by exists [].
        -- exists [[]]. by rewrite splitlines_break.
      * rewrite !after_break_cons.
        destruct ((c =? CR) && (c' =? LF)).
        -- destruct IH2 as [extra ->]. by exists extra.
        -- destruct IH1 as [extra ->]. by exists extra.
    + rewrite !splitlines_char by done.
      destruct IH1 as [extra IH1]. rewrite IH1.
      destruct (splitlines s) as [|l ls] eqn:Hs.
      * destruct s; [|by apply splitlines_nonempty in Hs].
        cbn [app] in *. rewrite splitlines_break in IH1 by done.
        cbn in IH1. subst extra. by exists [].
      * by exists extra.
Qed.

Lemma splitlines_keeps_lines s b l :
  is_linebreak b = true → l ∈ splitlines s → l ∈ splitlines (s ++ [b]).
Proof.
  intros Hb Hl. destruct (splitlines_app_break s b Hb) as [extra ->].
  set_solver.
Qed.

(** A run without line boundary is the start of the first line. *)
Lemma splitlines_run l t :
  Forall (λ c, is_linebreak c = false) l → l ≠ [] →
  splitlines (l ++ t) =
    match splitlines t with [] => [l] | x :: xs => (l ++ x) :: xs end.
Proof.
  intros Hl. induction Hl as [|c l Hc Hl IH]; [done|]. intros _.
  simpl app. rewrite splitlines_char by done.
  destruct l as [|c' l'].
  - simpl. by destruct (splitlines t).
  - rewrite IH by done. by destruct (splitlines t).
Qed.

Lemma splitlines_linesep nl t :
  splitlines (os_linesep nl ++ t) = [] :: splitlines t.
Proof.
  destruct nl; simpl app.
  - rewrite splitlines_break by done. by rewrite after_break_not_CR.
  - by rewrite splitlines_break.
Qed.

Lemma splitlines_line nl l t :
  Forall (λ c, is_linebreak c = false) l → l ≠ [] →
  splitlines (l ++ os_linesep nl ++ t) = l :: splitlines t.
Proof.
  intros Hl Hne. rewrite splitlines_run, splitlines_linesep by done.
  by rewrite app_nil_r.
Qed.

(** The lines the script writes read back as they were written. *)
Lemma splitlines_join nl (lines : list str) fin :
  Forall (λ l, Forall (λ c, is_linebreak c = false) l ∧ l ≠ []) lines →
  lines ≠ [] →
  fin = [] ∨ fin = os_linesep nl →
  splitlines (join (os_linesep nl) lines ++ fin) = lines.
Proof.
  intros Hlines Hne Hfin.
  induction Hlines as [|l lines [Hl Hl'] Hlines IH]; [done|]. clear Hne.
  destruct lines as [|l2 lines].
  - cbn [join]. destruct Hfin as [-> | ->].
    + pose proof (splitlines_run l [] Hl Hl') as Hrun.
      by rewrite !app_nil_r in *.
    + pose proof (splitlines_line nl l [] Hl Hl') as Hline.
      by rewrite !app_nil_r in *.
  - change (join (os_linesep nl) (l :: l2 :: lines))
      with (l ++ os_linesep nl ++ join (os_linesep nl) (l2 :: lines)).
    rewrite <- !app_assoc, splitlines_line by done.
    by rewrite IH.
Qed.

Lemma splitlines_no_break s l :
  l ∈ splitlines s → Forall (λ c, is_linebreak c = false) l.
Proof.
  revert l. induction s as [|c s IH1 IH2] using str_ind2; intros l.
  - cbn. by intros ?%elem_of_nil.
  - destruct (is_linebreak c) eqn:Hc.
    + rewrite splitlines_break by done.
      intros [-> | Hl]%elem_of_cons; [done|].
      destruct (after_break_tail c s) as [Heq | Heq]; rewrite Heq in Hl; auto.
    + rewrite splitlines_char by done.
      destruct (splitlines s) as [|x xs].
      * intros ->%list_elem_of_singleton. by repeat constructor.
      * intros [-> | Hl]%elem_of_cons.
        -- constructor; [done|]. apply IH1. by left.
        -- apply IH1. by right.
Qed.

(** Reading with universal newlines does not change the lines. *)
Lemma splitlines_universal_newlines s :
  splitlines (universal_newlines s) = splitlines s.
Proof.
  induction s as [|c s IH1 IH2] using str_ind2; [done|].
  cbn [universal_newlines]. destruct (c =? CR) eqn:Hcr.
  - apply N.eqb_eq in Hcr as ->.
    rewrite !splitlines_break by done.
    rewrite after_break_not_CR by done.
    destruct s as [|c' s']; [done|]. cbn [tail] in IH2.
    rewrite after_break_cons. change (CR =? CR) with true. cbn [andb].
    destruct (c' =? LF); by f_equal.
  - apply N.eqb_neq in Hcr.
    destruct (is_linebreak c) eqn:Hc.
    + rewrite !splitlines_break by done.
      rewrite !after_break_not_CR by done. by rewrite IH1.
    + rewrite !splitlines_char by done. by rewrite IH1.
Qed.

Lemma readline_spec text :
  ((readline text).2 = [])
  ∨ ∃ line, text = line ++ LF :: (readline text).2.
Proof.
  induction text as [|c text IH]; [by left|].
  cbn [readline]. destruct (c =? LF) eqn:Hc.
  - apply N.eqb_eq in Hc as ->. right. by exists [].
  - destruct (readline text) as [line after]. cbn [snd] in *.
    destruct IH as [-> | [line' ->]]; [by left|].
    right. by exists (c :: line').
Qed.

(** The body that follows the first line only has lines of the text. *)
Lemma splitlines_after_readline text l :
  l ∈ splitlines (readline text).2 → l ∈ splitlines text.
Proof.
  destruct (readline_spec text) as [-> | [line Heq]].
  - by intros ?%elem_of_nil.
  - intros Hl. rewrite Heq, splitlines_app_LF. set_solver.
Qed.

Lemma translate_newlines_app nl s t :
  translate_newlines nl (s ++ t)
  = translate_newlines nl s ++ translate_newlines nl t.
Proof.
  induction s as [|c s IH]; [done|].
  cbn [app translate_newlines]. by rewrite IH, <- app_assoc.
Qed.

Lemma translate_newlines_LF nl : translate_newlines nl [LF] = os_linesep nl.
Proof. cbn. by rewrite app_nil_r. Qed.

Lemma translate_newlines_line nl l :
  Forall (λ c, is_linebreak c = false) l → translate_newlines nl l = l.
Proof.
  induction 1 as [|c l Hc _ IH]; [done|].
  cbn [translate_newlines]. rewrite IH.
  destruct (c =? LF) eqn:Hlf; [|done].
  apply N.eqb_eq in Hlf as ->. done.
Qed.

Lemma translate_newlines_join nl (lines : list str) :
  Forall (λ l, Forall (λ c, is_linebreak c = false) l) lines →
  translate_newlines nl (join [LF] lines) = join (os_linesep nl) lines.
Proof.
  induction 1 as [|l lines Hl Hlines IH]; [done|].
  destruct lines as [|l2 lines].
  - by apply translate_newlines_line.
  - change (join [LF] (l :: l2 :: lines))
      with (l ++ [LF] ++ join [LF] (l2 :: lines)).
    rewrite !translate_newlines_app, IH, translate_newlines_LF.
    by rewrite translate_newlines_line.
Qed.

Lemma truthy_strip_nonempty l : truthy (strip l) = true → l ≠ [].
Proof. by intros H ->. Qed.

(** The loop of [append_to_file] is a filter. *)
Lemma lines_to_write_filter (existing : gset str) (source_lines : list str) :
  lines_to_write existing source_lines
  = filter (λ line, line ∉ existing) source_lines.
Proof.
  unfold lines_to_write.
  enough (∀ acc, foldl (λ acc line,
             if decide (line ∉ existing) then acc ++ [line] else acc)
           acc source_lines
          = acc ++ filter (λ line, line ∉ existing) source_lines) as H
    by apply (H []).
  induction source_lines as [|line ls IH]; intros acc; cbn [foldl].
  - by rewrite app_nil_r.
  - rewrite IH. destruct (decide (line ∉ existing)).
    + rewrite filter_cons_True by done. by rewrite <- app_assoc.
    + by rewrite filter_cons_False.
Qed.

(** The lines of a source body have no line boundary and are not empty. *)
Lemma source_lines_of_wf content :
  Forall (λ l, Forall (λ c, is_linebreak c = false) l ∧ l ≠ [])
         (source_lines_of content).
Proof.
  apply Forall_forall. intros l [Hl Hin]%list_elem_of_filter. split.
  - by eapply splitlines_no_break.
  - apply truthy_strip_nonempty. by destruct (truthy (strip l)).
Qed.

End StringFacts.

(** * Facts about path resolution *)

Section ResolutionFacts.

Implicit Types (fs : FS) (p q cur rest : path) (x name : string).

Lemma walk_nil fuel fs cur : walk fuel fs cur [] = Ok cur.
Proof. by destruct fuel. Qed.

Lemma walk_cons fuel fs cur name rest :
  walk fuel fs cur (name :: rest) =
    match fs !! (cur ++ [name]) with
    | None =>
        match rest with
        | [] => Ok (cur ++ [name])
        | _ => Raise FileNotFoundError
        end
    | Some (File _) =>
        match rest with
        | [] => Ok (cur ++ [name])
        | _ => Raise NotADirectoryError
        end
    | Some Dir => walk fuel fs (cur ++ [name]) rest
    | Some (Link t) =>
        match fuel with
        | O => Raise SymlinkLoopError
        | S fuel' => walk fuel' fs [] (t ++ rest)
        end
    end.
Proof. by destruct fuel. Qed.

Lemma entry_snoc fs cur name : entry fs (cur ++ [name]) = fs !! (cur ++ [name]).
Proof. by destruct cur. Qed.

Lemma extends_refl fs : extends fs fs.
Proof. intros p n Hp. eauto. Qed.

Lemma extends_trans fs1 fs2 fs3 :
  extends fs1 fs2 → extends fs2 fs3 → extends fs1 fs3.
Proof.
  intros H12 H23 p n Hp.
  destruct (H12 p n Hp) as (n2 & Hp2 & Hs2).
  destruct (H23 p n2 Hp2) as (n3 & Hp3 & Hs3).
  exists n3. split; [done | congruence].
Qed.

Lemma only_new_dirs_refl fs : only_new_dirs fs fs.
Proof. intros p. by left. Qed.

Lemma only_new_dirs_trans fs1 fs2 fs3 :
  only_new_dirs fs1 fs2 → only_new_dirs fs2 fs3 → only_new_dirs fs1 fs3.
Proof.
  intros H12 H23 p.
  destruct (H12 p) as [E12 | [N1 D2]], (H23 p) as [E23 | [N2 D3]].
  - left. congruence.
  - right. split; congruence.
  - right. split; congruence.
  - congruence.
Qed.

Lemma only_new_dirs_extends fs fs' : only_new_dirs fs fs' → extends fs fs'.
Proof.
  intros H p n Hp. destruct (H p) as [E | [N _]]; [|congruence].
  exists n. split; [congruence | done].
Qed.

Lemma extends_entry fs fs' p n :
  extends fs fs' → entry fs p = Some n →
  ∃ n', entry fs' p = Some n' ∧ shape n' = shape n.
Proof. intros Hext. destruct p; [eauto | apply Hext]. Qed.

(** A resolution that succeeds is not disturbed by new entries or by new
    file contents, as long as no symlink appears where it ends. *)
Lemma walk_mono fuel fs fs' cur rest r :
  extends fs fs' →
  walk fuel fs cur rest = Ok r →
  not_link (entry fs' r) →
  walk fuel fs' cur rest = Ok r.
Proof.
  intros Hext. revert cur rest.
  induction fuel as [|fuel IHfuel]; intros cur rest; revert cur;
    (induction rest as [|name rest IH]; intros cur;
     [by rewrite !walk_nil|]);
    rewrite !walk_cons; intros Hwalk Hr.
  all: destruct (fs !! (cur ++ [name])) as [n|] eqn:Hn.
  all: try (destruct (Hext _ _ Hn) as (n' & -> & Hs);
            destruct n, n'; try discriminate; simplify_eq/=; by eauto).
  all: destruct rest; [|done]; simplify_eq.
  all: rewrite entry_snoc in Hr.
  all: destruct (fs' !! (cur ++ [name])) as [[]|] eqn:Hn';
    rewrite ?walk_nil; try done; by destruct (Hr target).
Qed.

(** Resolving one more component below a directory. *)
Lemma walk_snoc fuel fs cur p x c :
  walk fuel fs cur p = Ok c →
  entry fs c = Some Dir →
  not_link (fs !! (c ++ [x])) →
  walk fuel fs cur (p ++ [x]) = Ok (c ++ [x]).
Proof.
  revert cur p.
  induction fuel as [|fuel IHfuel]; intros cur p; revert cur;
    (induction p as [|name p IH]; intros cur;
     [rewrite walk_nil; intros [= ->] Hc Hx; cbn [app]; rewrite walk_cons;
      destruct (fs !! (c ++ [x])) as [[]|] eqn:Hl;
      rewrite ?walk_nil; try done; by destruct (Hx target) |]);
    cbn [app]; rewrite !walk_cons; intros Hwalk Hc Hx.
  all: destruct (fs !! (cur ++ [name])) as [[]|] eqn:Hn; try done.
  all: try (destruct p; [|done]; simplify_eq;
            rewrite entry_snoc in Hc; congruence).
  all: try by apply IH.
  rewrite app_assoc. by apply IHfuel.
Qed.

(** A path that resolves to a directory goes through its parent. *)
Lemma walk_snoc_inv fuel fs cur p x r :
  entry fs cur = Some Dir →
  walk fuel fs cur (p ++ [x]) = Ok r →
  entry fs r = Some Dir →
  ∃ c, walk fuel fs cur p = Ok c ∧ entry fs c = Some Dir
       ∧ is_Some (fs !! (c ++ [x])).
Proof.
  revert cur p.
  induction fuel as [|fuel IHfuel]; intros cur p; revert cur;
    (induction p as [|name p IH]; intros cur Hcur;
     [cbn [app]; rewrite walk_cons, walk_nil; intros Hwalk Hr;
      exists cur; split; [done|]; split; [done|];
      destruct (fs !! (cur ++ [x])) as [[]|] eqn:Hl; try done;
      simplify_eq; rewrite entry_snoc in Hr; congruence |]);
    cbn [app]; rewrite !walk_cons; intros Hwalk Hr.
  all: destruct (fs !! (cur ++ [name])) as [[]|] eqn:Hn; try done.
  all: try (by destruct p).
  all: try (apply IH; [by rewrite entry_snoc | done | done]).
  rewrite app_assoc in Hwalk. by apply IHfuel in Hwalk.
Qed.

Lemma last_parent p x : last p = Some x → p = parent p ++ [x].
Proof.
  intros Hl. apply last_Some in Hl as [q ->].
  unfold parent. by rewrite removelast_last.
Qed.

Lemma parent_snoc q x : parent (q ++ [x]) = q.
Proof. unfold parent. by rewrite removelast_last. Qed.

Lemma is_dir_spec fs p :
  is_dir fs p = true ↔ ∃ r, realpath fs p = Ok r ∧ entry fs r = Some Dir.
Proof.
  unfold is_dir, stat. destruct (realpath fs p) as [r|e]; cbn.
  - destruct (entry fs r) as [[]|] eqn:Hr; split; try done; eauto;
      intros (r' & [= <-] & Hr'); congruence.
  - split; [done | by intros (r' & ? & _)].
Qed.

Lemma is_dir_root fs : is_dir fs [] = true.
Proof. done. Qed.

(** The parent of a directory is a directory. *)
Lemma is_dir_parent fs p : is_dir fs p = true → is_dir fs (parent p) = true.
Proof.
  destruct (last p) as [x|] eqn:Hl.
  - rewrite (last_parent p x Hl) at 1.
    rewrite !is_dir_spec. intros (r & Hwalk & Hr).
    apply walk_snoc_inv in Hwalk as (c & Hc & Hdir & _); [eauto|done..].
  - apply last_None in Hl as ->. done.
Qed.

End ResolutionFacts.

(** * Facts about [mkdir] *)

Section MkdirFacts.

Implicit Types (fs : FS) (p q : path) (x : string).

Lemma insert_extends fs r n : fs !! r = None → extends fs (<[r := n]> fs).
Proof.
  intros Hr p m Hp. exists m. split; [|done].
  rewrite lookup_insert_ne; [done | congruence].
Qed.

Lemma insert_only_new_dirs fs r :
  fs !! r = None → only_new_dirs fs (<[r := Dir]> fs).
Proof.
  intros Hr p. destruct (decide (r = p)) as [<- | Hne].
  - right. by rewrite lookup_insert_eq.
  - left. by rewrite lookup_insert_ne.
Qed.

Lemma lrealpath_Ok fs p r :
  p ≠ [] → lrealpath fs p = Ok r →
  ∃ x d, p = parent p ++ [x] ∧ realpath fs (parent p) = Ok d
         ∧ entry fs d = Some Dir ∧ r = d ++ [x].
Proof.
  intros Hp. unfold lrealpath.
  destruct (last p) as [x|] eqn:Hl; [|by apply last_None in Hl].
  destruct (realpath fs (parent p)) as [d|e]; cbn; [|done].
  destruct (entry fs d) as [[]|] eqn:Hd; try done.
  intros [= <-]. exists x, d. by rewrite <- last_parent.
Qed.

Lemma lrealpath_is_dir fs p :
  p ≠ [] → is_dir fs p = true →
  ∃ r, lrealpath fs p = Ok r ∧ is_Some (fs !! r).
Proof.
  intros Hp Hdir. unfold lrealpath.
  destruct (last p) as [x|] eqn:Hl; [|by apply last_None in Hl].
  apply is_dir_spec in Hdir as (r & Hwalk & Hr).
  rewrite (last_parent p x Hl) in Hwalk.
  apply walk_snoc_inv in Hwalk as (c & Hc & Hdir & Hx); [|done..].
  unfold realpath. rewrite Hc. cbn. rewrite Hdir. eauto.
Qed.

Lemma os_mkdir_frame p fs fs' r :
  os_mkdir p fs = (fs', r) → only_new_dirs fs fs'.
Proof.
  unfold os_mkdir. destruct p as [|x0 p0].
  { intros [= <- _]. apply only_new_dirs_refl. }
  destruct (lrealpath fs (x0 :: p0)) as [d|e].
  - destruct (fs !! d) eqn:Hd; intros [= <- _].
    + apply only_new_dirs_refl.
    + by apply insert_only_new_dirs.
  - intros [= <- _]. apply only_new_dirs_refl.
Qed.

Lemma os_mkdir_Ok p fs fs' u :
  os_mkdir p fs = (fs', Ok u) → is_dir fs' p = true.
Proof.
  unfold os_mkdir. destruct p as [|x0 p0]; [done|].
  destruct (lrealpath fs (x0 :: p0)) as [r|e] eqn:Hl; [|done].
  destruct (fs !! r) eqn:Hr; [done|]. intros [= <-].
  apply lrealpath_Ok in Hl as (x & d & Hp & Hwalk & Hd & ->); [|done].
  rewrite Hp. apply is_dir_spec. exists (d ++ [x]).
  assert (entry (<[d ++ [x] := Dir]> fs) d = Some Dir) as Hd'.
  { assert (d ++ [x] ≠ d) as Hne.
    { intros Heq. apply (f_equal length) in Heq.
      rewrite length_app in Heq. cbn in Heq. lia. }
    destruct d; [done|]. cbn [entry] in *. by rewrite lookup_insert_ne. }
  split.
  - apply walk_snoc.
    + eapply walk_mono; [by apply insert_extends | done |].
      rewrite Hd'. by intros t.
    + done.
    + rewrite lookup_insert_eq. by intros t.
  - by rewrite entry_snoc, lookup_insert_eq.
Qed.

Lemma os_mkdir_is_dir p fs :
  is_dir fs p = true → os_mkdir p fs = (fs, Raise FileExistsError).
Proof.
  intros Hdir. unfold os_mkdir. destruct p as [|x0 p0]; [done|].
  destruct (lrealpath_is_dir fs (x0 :: p0)) as (r & -> & [n ->]); done.
Qed.

Lemma mkdir_exist_ok_frame p fs fs' r :
  mkdir_exist_ok p fs = (fs', r) → only_new_dirs fs fs'.
Proof.
  unfold mkdir_exist_ok.
  destruct (os_mkdir p fs) as [fs1 [u|e]] eqn:Hmk;
    apply os_mkdir_frame in Hmk.
  - by intros [= <- _].
  - destruct e; try (by intros [= <- _]);
      destruct (is_dir fs1 p); by intros [= <- _].
Qed.

Lemma mkdir_exist_ok_Ok p fs fs' u :
  mkdir_exist_ok p fs = (fs', Ok u) → is_dir fs' p = true.
Proof.
  unfold mkdir_exist_ok.
  destruct (os_mkdir p fs) as [fs1 [u1|e]] eqn:Hmk.
  - intros [= <- _]. by eapply os_mkdir_Ok.
  - destruct e; try done;
      destruct (is_dir fs1 p) eqn:Hdir; by intros [= <-].
Qed.

Lemma mkdir_parents_from_frame depth p fs fs' r :
  mkdir_parents_from depth p fs = (fs', r) → only_new_dirs fs fs'.
Proof.
  revert p fs fs' r. induction depth as [|depth IH]; intros p fs fs' r;
    cbn [mkdir_parents_from];
    destruct (os_mkdir p fs) as [fs1 [u|e]] eqn:Hmk;
    apply os_mkdir_frame in Hmk.
  1, 3: by intros [= <- _].
  - destruct e; try (by intros [= <- _]);
      destruct (is_dir fs1 p); by intros [= <- _].
  - destruct e; try (destruct (is_dir fs1 p); by intros [= <- _]).
    destruct (decide (parent p = p)); [by intros [= <- _]|].
    unfold mbind, M_bind.
    destruct (mkdir_parents_from depth (parent p) fs1)
      as [fs2 [u|e]] eqn:Hrec; apply IH in Hrec.
    + intros Hlast%mkdir_exist_ok_frame.
      eauto using only_new_dirs_trans.
    + intros [= <- _]. eauto using only_new_dirs_trans.
Qed.

Lemma mkdir_parents_from_Ok depth p fs fs' u :
  mkdir_parents_from depth p fs = (fs', Ok u) → is_dir fs' p = true.
Proof.
  revert p fs fs' u. induction depth as [|depth IH]; intros p fs fs' u;
    cbn [mkdir_parents_from];
    destruct (os_mkdir p fs) as [fs1 [u1|e]] eqn:Hmk.
  1, 3: intros [= <- _]; by eapply os_mkdir_Ok.
  - destruct e; try done;
      destruct (is_dir fs1 p) eqn:Hdir; by intros [= <-].
  - destruct e;
      try (destruct (is_dir fs1 p) eqn:Hdir; by intros [= <-]).
    destruct (decide (parent p = p)); [done|].
    unfold mbind, M_bind.
    destruct (mkdir_parents_from depth (parent p) fs1) as [fs2 [u2|e]];
      [|done].
    apply mkdir_exist_ok_Ok.
Qed.

(** Making a directory that is there changes nothing. *)
Lemma mkdir_parents_from_is_dir depth p fs :
  is_dir fs p = true → mkdir_parents_from depth p fs = (fs, Ok ()).
Proof.
  intros Hdir.
  destruct depth; cbn [mkdir_parents_from];
    rewrite (os_mkdir_is_dir p fs Hdir); by rewrite Hdir.
Qed.

Lemma mkdir_parents_frame p fs fs' r :
  mkdir_parents p fs = (fs', r) → only_new_dirs fs fs'.
Proof. apply mkdir_parents_from_frame. Qed.

Lemma mkdir_parents_Ok p fs fs' u :
  mkdir_parents p fs = (fs', Ok u) → is_dir fs' p = true.
Proof. apply mkdir_parents_from_Ok. Qed.

Lemma mkdir_parents_is_dir p fs :
  is_dir fs p = true → mkdir_parents p fs = (fs, Ok ()).
Proof. apply mkdir_parents_from_is_dir. Qed.

End MkdirFacts.

(** * The classifier (C1) *)

(** C1, as stated, fails: a first line that holds the marker after other
    characters is classified as append mode although its normalized form
    differs from the marker. *)
Lemma should_append_not_equality :
  open_read commented_marker_fs bashrc_source = Ok commented_marker_file
  ∧ should_append ascii_lower commented_marker_fs bashrc_source = Ok true
  ∧ normalized_first_line ascii_lower commented_marker_file ≠ APPEND_MODE_TARGET.
Proof. split; [|split]; vm_compute; [done | done | discriminate]. Qed.

(** C1, amended: for every readable file, [should_append] returns true if
    and only if the first line, lowercased and with all whitespace removed,
    contains the marker [>>>append<<<] as a substring. *)
Theorem should_append_iff_contains (lower : str → str) (fs : FS)
    (file_path : path) (raw : str) :
  open_read fs file_path = Ok raw →
  ∃ b, should_append lower fs file_path = Ok b
       ∧ (b = true ↔
          ∃ pre post,
            normalized_first_line lower raw = pre ++ APPEND_MODE_TARGET ++ post).
Proof.
  intros Hread. unfold should_append. rewrite Hread. cbn.
  eexists. split; [done|].
  by rewrite contains_spec, join_split.
Qed.

Lemma should_append_iff_contains_witness :
  ∃ b, should_append ascii_lower commented_marker_fs bashrc_source = Ok b
       ∧ (b = true ↔
          ∃ pre post,
            normalized_first_line ascii_lower commented_marker_file
            = pre ++ APPEND_MODE_TARGET ++ post).
Proof.
  apply should_append_iff_contains. vm_compute. reflexivity.
Defined.

(** * The lines that are written (C6) *)



(** * The confirmation prompt (C8) *)

(** C8: when the answer to the prompt is anything but ["y"] (the empty
    answer and ["Y"] included), [install_dotfiles] returns normally with the
    filesystem exactly as it was, and so does [main] on a supported
    platform. *)
Theorem install_dotfiles_declined (lower : str → str)
    (rglob : FS → path → list path) (host : Host)
    (os_name : OperatingSystem) (answer : str) (fs : FS) :
  stdin_line host = Some answer →
  answer ≠ lit "y" →
  install_dotfiles lower rglob host os_name fs = (fs, Ok AbortedByUser)
  ∧ (detect_os lower (platform_system host) = Ok os_name →
     main lower rglob host fs = (fs, Ok AbortedByUser)).
Proof.
  intros Hin Hne.
  assert (install_dotfiles lower rglob host os_name fs = (fs, Ok AbortedByUser))
    as Hrun.
  { unfold install_dotfiles. rewrite Hin. by rewrite decide_True. }
  split; [done|].
  intros Hos. unfold main, mbind, M_bind, query. by rewrite Hos.
Qed.

(** * Facts about reading and appending *)

Section AppendFacts.

Implicit Types (fs : FS) (p q r : path) (raw old : str).

Lemma entry_File fs r raw :
  entry fs r = Some (File raw) ↔ r ≠ [] ∧ fs !! r = Some (File raw).
Proof. destruct r; cbn; split; try done; by intros []. Qed.

Lemma entry_None fs r : entry fs r = None ↔ r ≠ [] ∧ fs !! r = None.
Proof. destruct r; cbn; split; try done; by intros []. Qed.

Lemma open_read_Ok fs p raw :
  open_read fs p = Ok raw ↔
  ∃ r, realpath fs p = Ok r ∧ entry fs r = Some (File raw).
Proof.
  unfold open_read. destruct (realpath fs p) as [r|e]; cbn.
  - destruct (entry fs r) as [[]|] eqn:Hr; split; try done;
      try (intros (r' & [= <-] & Hr'); congruence).
    intros [= ->]. eauto.
  - split; [done | by intros (r' & ? & _)].
Qed.

Lemma is_dir_mono fs fs' p :
  extends fs fs' → is_dir fs p = true → is_dir fs' p = true.
Proof.
  intros Hext. rewrite !is_dir_spec. intros (r & Hwalk & Hr).
  destruct (extends_entry _ _ _ _ Hext Hr) as (n' & Hr' & Hs).
  destruct n'; try done. exists r. split; [|done].
  eapply walk_mono; [done..|]. rewrite Hr'. by intros t.
Qed.

(** Reading a file is not disturbed by new directories. *)
Lemma open_read_only_new_dirs fs fs' p raw :
  only_new_dirs fs fs' → open_read fs p = Ok raw → open_read fs' p = Ok raw.
Proof.
  intros Hnew. rewrite !open_read_Ok. intros (r & Hwalk & Hr).
  apply entry_File in Hr as [Hne Hr].
  assert (fs' !! r = Some (File raw)) as Hr'.
  { destruct (Hnew r) as [-> | [? _]]; [done | congruence]. }
  exists r. split.
  - eapply walk_mono; [by apply only_new_dirs_extends | done |].
    intros t. rewrite (proj2 (entry_File fs' r raw)); done.
  - by apply entry_File.
Qed.

Lemma stat_realpath fs p r :
  realpath fs p = Ok r →
  stat fs p = match entry fs r with
              | Some n => Ok n
              | None => Raise FileNotFoundError
              end.
Proof. intros Hr. unfold stat. by rewrite Hr. Qed.

(** What a successful [open(p, "a")] finds and leaves. *)
Lemma open_append_Ok p fs fs1 r :
  open_append p fs = (fs1, Ok r) →
  ∃ old, realpath fs p = Ok r
         ∧ r ≠ []
         ∧ (fs !! r = Some (File old) ∨ (fs !! r = None ∧ old = []))
         ∧ fs1 = <[r := File old]> fs.
Proof.
  unfold open_append. destruct (realpath fs p) as [r'|e] eqn:Hwalk; [|done].
  destruct (entry fs r') as [[old| |]|] eqn:Hr; try done; intros [= <- <-].
  - apply entry_File in Hr as [Hne Hr]. exists old.
    split_and!; auto. by rewrite insert_id.
  - apply entry_None in Hr as [Hne Hr]. exists []. split_and!; auto.
Qed.

Lemma insert_file_extends fs r old new :
  fs !! r = Some (File old) ∨ fs !! r = None →
  extends fs (<[r := File new]> fs).
Proof.
  intros Hr p n Hp. destruct (decide (r = p)) as [<- | Hne].
  - rewrite lookup_insert_eq. destruct Hr as [Hr | Hr]; [|congruence].
    exists (File new). split; [done|]. by simplify_eq.
  - rewrite lookup_insert_ne by done. eauto.
Qed.

(** After a file was written at the place a path resolves to, the path
    still resolves there and reads the new content. *)
Lemma open_read_insert fs p r old new :
  realpath fs p = Ok r → r ≠ [] →
  fs !! r = Some (File old) ∨ fs !! r = None →
  open_read (<[r := File new]> fs) p = Ok new.
Proof.
  intros Hwalk Hne Hr. apply open_read_Ok. exists r. split.
  - eapply walk_mono; [by eapply insert_file_extends | done |].
    intros t. destruct r; [done|]. cbn. by rewrite lookup_insert_eq.
  - apply entry_File. by rewrite lookup_insert_eq.
Qed.

Lemma alter_append_insert fs r old data :
  alter (append_content data) r (<[r := File old]> fs)
  = <[r := File (old ++ data)]> fs.
Proof.
  apply map_eq. intros q. rewrite lookup_alter.
  destruct (decide (r = q)) as [<- | Hne].
  - by rewrite !lookup_insert_eq.
  - by rewrite !lookup_insert_ne.
Qed.

Lemma size_positive old : (0 <? N.of_nat (length old)) = true ↔ old ≠ [].
Proof.
  rewrite N.ltb_lt. destruct old; cbn [length]; split; try done; lia.
Qed.

Lemma write_text_insert nl fs r old text :
  write_text nl r text (<[r := File old]> fs)
  = (<[r := File (old ++ translate_newlines nl text)]> fs, Ok ()).
Proof. unfold write_text, write_raw. by rewrite alter_append_insert. Qed.

(** The destination as the checks that follow [open(p, "a")] see it. *)
Lemma stat_after_open fs p r old :
  realpath fs p = Ok r → r ≠ [] →
  fs !! r = Some (File old) ∨ fs !! r = None →
  stat (<[r := File old]> fs) p = Ok (File old).
Proof.
  intros Hwalk Hne Hr.
  pose proof (open_read_insert fs p r old old Hwalk Hne) as Hread.
  apply open_read_Ok in Hread as (r' & Hwalk' & Hr'); [|naive_solver].
  by rewrite (stat_realpath _ _ _ Hwalk'), Hr'.
Qed.

End AppendFacts.

Section AppendRun.

Implicit Types (fs : FS) (p q r : path) (raw old : str).

(** The three writes of [append_to_file] on the handle [r], from the
    run [Hrun] of the script after [open(destination, "a")]. *)
Local Ltac append_to_file_writes Hrun :=
  match goal with
  | Hwalk : realpath ?fs0 ?destination = Ok ?r, Hne : ?r ≠ [] |- _ =>
      match type of Hrun with
      | context [exists_ (<[r := File ?old]> fs0) destination] =>
          assert (fs0 !! r = Some (File old) ∨ fs0 !! r = None) as Hr2
            by tauto;
          pose proof (stat_after_open fs0 destination r old Hwalk Hne Hr2)
            as Hstat;
          pose proof (open_read_insert fs0 destination r old old Hwalk Hne Hr2)
            as Hcheck;
          let step :=
            (repeat first
               [ rewrite Hstat in Hrun
               | rewrite Hcheck in Hrun
               | rewrite write_text_insert in Hrun
               | progress unfold exists_, st_size, mret, M_ret in Hrun
               | progress cbn [succeeded result_bind mbind] in Hrun
               | progress cbv beta iota in Hrun ]) in
          step;
          destruct (0 <? N.of_nat (length old)) eqn:Hsize; step;
          try match type of Hrun with
              | context [decide (last old ≠ Some LF)] =>
                  destruct (decide (last old ≠ Some LF)) as [Hlast | Hlast]
              end;
          step;
          destruct (endswith_newline _) eqn:Hend; step;
          simplify_eq
      end
  end.

Local Ltac written_text_cases :=
  unfold written_text;
  match goal with
  | Hend : endswith_newline _ = _ |- _ => rewrite Hend
  end;
  match goal with
  | Hsize : (0 <? N.of_nat (length ?old)) = _
    |- context [decide (?old ≠ [] ∧ last ?old ≠ Some LF)] =>
      destruct (decide (old ≠ [] ∧ last old ≠ Some LF));
      first
        [ by rewrite ?translate_newlines_app, <- ?app_assoc, ?app_nil_r
        | exfalso; tauto
        | exfalso; apply size_positive in Hsize; tauto
        | exfalso;
          match goal with
          | H : _ ∧ _ |- _ =>
              destruct H as [H%size_positive _]; congruence
          end ]
  end.

(** The run of [append_to_file] that ends with new lines written. *)
Lemma append_to_file_Appended nl source destination fs fs' count :
  append_to_file nl source destination fs = (fs', Ok (Appended count)) →
  ∃ fs0 raw r old,
    let body := (readline (universal_newlines raw)).2 in
    let lines :=
      lines_to_write (list_to_set (splitlines (universal_newlines old)))
                     (source_lines_of body) in
    mkdir_parents (parent destination) fs = (fs0, Ok ())
    ∧ open_read fs0 source = Ok raw
    ∧ realpath fs0 destination = Ok r ∧ r ≠ []
    ∧ (fs0 !! r = Some (File old) ∨ (fs0 !! r = None ∧ old = []))
    ∧ lines ≠ [] ∧ count = length lines
    ∧ fs' = <[r := File (old ++ translate_newlines nl
                                  (written_text old body lines))]> fs0.
Proof.
  unfold append_to_file, mbind, M_bind, query, ask.
  destruct (mkdir_parents (parent destination) fs) as [fs0 [[]|e]] eqn:Hmk;
    [|done].
  unfold read_file_content at 1.
  destruct (open_read fs0 source) as [raw|e] eqn:Hsrc; [|done].
  cbn [result_bind mbind].
  case_bool_decide as Hsl; [done|].
  intros Hrun. exists fs0, raw.
  destruct (exists_ fs0 destination) eqn:Hex.
  - unfold read_file_content in Hrun.
    destruct (open_read fs0 destination) as [old|e] eqn:Hdst; [|done].
    cbn [result_bind mbind] in Hrun. unfold mret at 1, M_ret at 1 in Hrun.
    case_bool_decide as Hl; [done|].
    apply open_read_Ok in Hdst as (r & Hwalk & [Hne Hr]%entry_File).
    destruct (open_append destination fs0) as [fs1 [f|e]] eqn:Hopen;
      [|done].
    apply open_append_Ok in Hopen as (old' & Hwalk' & _ & Hr' & ->).
    assert (f = r) as -> by congruence.
    assert (old' = old) as -> by (destruct Hr' as [? | [? _]]; congruence).
    append_to_file_writes Hrun; exists r, old; split_and!; auto;
      written_text_cases.
  - unfold mret at 1, M_ret at 1 in Hrun.
    case_bool_decide as Hl; [done|].
    destruct (open_append destination fs0) as [fs1 [r|e]] eqn:Hopen;
      [|done].
    apply open_append_Ok in Hopen as (old & Hwalk & Hne & Hr & ->).
    assert (fs0 !! r = None) as Hnone.
    { destruct Hr as [Hr | [Hr _]]; [|done].
      unfold exists_ in Hex. rewrite (stat_realpath _ _ _ Hwalk) in Hex.
      rewrite (proj2 (entry_File fs0 r old)) in Hex; done. }
    assert (old = []) as -> by (destruct Hr as [Hr | [_ ->]]; congruence).
    append_to_file_writes Hrun; exists r, []; split_and!; auto;
      written_text_cases.
Qed.

Lemma open_append_Raise p fs fs1 e :
  open_append p fs = (fs1, Raise e) → fs1 = fs.
Proof.
  unfold open_append. destruct (realpath fs p) as [r|e']; [|by intros [= <-]].
  by destruct (entry fs r) as [[]|]; intros [= <-].
Qed.

(** A run of [append_to_file] that raises stopped before anything was
    written: the filesystem is the one left by making the parent
    directory. *)
Lemma append_to_file_Raise nl source destination fs fs' e :
  append_to_file nl source destination fs = (fs', Raise e) →
  (mkdir_parents (parent destination) fs).1 = fs'.
Proof.
  unfold append_to_file, mbind, M_bind, query, ask.
  destruct (mkdir_parents (parent destination) fs) as [fs0 [[]|e0]] eqn:Hmk;
    [|by intros [= <-]].
  destruct (read_file_content fs0 source true) as [body|e0];
    [|by intros [= <-]].
  case_bool_decide as Hsl; [done|].
  intros Hrun. cbn [fst].
  destruct (exists_ fs0 destination) eqn:Hex.
  - destruct (read_file_content fs0 destination false) as [text|e0];
      [|by simplify_eq].
    unfold mret at 1, M_ret at 1 in Hrun.
    case_bool_decide as Hl; [done|].
    destruct (open_append destination fs0) as [fs1 [r|e0]] eqn:Hopen;
      [|apply open_append_Raise in Hopen; by simplify_eq].
    apply open_append_Ok in Hopen as (old & Hwalk & Hne & Hr & ->).
    append_to_file_writes Hrun.
  - unfold mret at 1, M_ret at 1 in Hrun.
    case_bool_decide as Hl; [done|].
    destruct (open_append destination fs0) as [fs1 [r|e0]] eqn:Hopen;
      [|apply open_append_Raise in Hopen; by simplify_eq].
    apply open_append_Ok in Hopen as (old & Hwalk & Hne & Hr & ->).
    append_to_file_writes Hrun.
Qed.

End AppendRun.

Section Idempotence.

Implicit Types (fs : FS) (p q r : path) (raw old : str).

Lemma splitlines_app_linesep nl old t :
  splitlines (old ++ os_linesep nl ++ t)
  = splitlines (old ++ os_linesep nl) ++ splitlines t.
Proof.
  destruct nl; cbn [os_linesep app].
  - apply splitlines_app_LF.
  - assert (old ++ CR :: LF :: t = (old ++ [CR]) ++ LF :: t) as ->
      by (by rewrite <- app_assoc).
    assert (old ++ [CR; LF] = (old ++ [CR]) ++ [LF]) as ->
      by (by rewrite <- app_assoc).
    apply splitlines_app_LF.
Qed.

Lemma splitlines_keeps_lines_linesep nl old l :
  l ∈ splitlines old → l ∈ splitlines (old ++ os_linesep nl).
Proof.
  intros Hl. destruct nl; cbn [os_linesep].
  - by apply splitlines_keeps_lines.
  - assert (old ++ [CR; LF] = (old ++ [CR]) ++ [LF]) as ->
      by (by rewrite <- app_assoc).
    by do 2 (apply splitlines_keeps_lines; [done|]).
Qed.

(** After the write, the old lines of the destination and the new lines
    are all lines of the destination. *)
Lemma written_lines_read_back nl old body (lines : list str) l :
  Forall (λ l, Forall (λ c, is_linebreak c = false) l ∧ l ≠ []) lines →
  lines ≠ [] →
  l ∈ splitlines old ∨ l ∈ lines →
  l ∈ splitlines (old ++ translate_newlines nl (written_text old body lines)).
Proof.
  intros Hwf Hne Hl. unfold written_text.
  rewrite !translate_newlines_app.
  rewrite translate_newlines_join
    by (eapply Forall_impl; [done | by intros ? []]).
  set (fin := translate_newlines nl (if endswith_newline body then _ else _)).
  assert (fin = [] ∨ fin = os_linesep nl) as Hfin.
  { unfold fin. destruct (endswith_newline body); [right | by left].
    apply translate_newlines_LF. }
  pose proof (splitlines_join nl lines fin Hwf Hne Hfin) as Hjoin.
  case_decide as Hsep.
  - rewrite translate_newlines_LF, splitlines_app_linesep, Hjoin.
    apply elem_of_app. destruct Hl as [Hl | Hl]; [left | by right].
    by apply splitlines_keeps_lines_linesep.
  - cbn [translate_newlines app].
    destruct (decide (old = [])) as [-> | Hold].
    + cbn [app]. rewrite Hjoin. destruct Hl as [Hl | Hl]; [|done].
      by apply elem_of_nil in Hl.
    + assert (last old = Some LF) as [o ->]%last_Some.
      { destruct (decide (last old = Some LF)); [done | tauto]. }
      rewrite <- app_assoc. cbn [app].
      rewrite splitlines_app_LF, Hjoin. set_solver.
Qed.

Lemma filter_none {A} (P : A → Prop) `{!∀ x, Decision (P x)} (l : list A) :
  (∀ x, x ∈ l → ¬ P x) → filter P l = [].
Proof.
  intros Hl. destruct (filter P l) as [|x xs] eqn:Hf; [done|].
  assert (x ∈ filter P l) as [HP Hx]%list_elem_of_filter
    by (rewrite Hf; by left).
  by destruct (Hl x Hx).
Qed.

Lemma lines_to_write_wf existing body :
  Forall (λ l, Forall (λ c, is_linebreak c = false) l ∧ l ≠ [])
         (lines_to_write existing (source_lines_of body)).
Proof.
  rewrite lines_to_write_filter. apply Forall_forall.
  intros l [_ Hl]%list_elem_of_filter.
  by apply (proj1 (Forall_forall _ _) (source_lines_of_wf body)).
Qed.

(** With the lines of the written destination, nothing is left to write. *)
Lemma lines_to_write_after_write nl old body :
  let existing := list_to_set (splitlines (universal_newlines old)) in
  let lines := lines_to_write existing (source_lines_of body) in
  lines ≠ [] →
  lines_to_write
    (list_to_set
       (splitlines
          (universal_newlines
             (old ++ translate_newlines nl (written_text old body lines)))))
    (source_lines_of body) = [].
Proof.
  intros existing lines Hne.
  rewrite lines_to_write_filter. apply filter_none.
  intros l Hl Hnew. apply Hnew.
  rewrite elem_of_list_to_set, splitlines_universal_newlines.
  apply written_lines_read_back; [apply lines_to_write_wf | done |].
  destruct (decide (l ∈ existing)) as [Hin | Hnin].
  - left. unfold existing in Hin.
    by rewrite elem_of_list_to_set, splitlines_universal_newlines in Hin.
  - right. unfold lines. rewrite lines_to_write_filter.
    by apply list_elem_of_filter.
Qed.

(** A file merged into itself has nothing to write. *)
Lemma lines_to_write_same_file raw :
  lines_to_write (list_to_set (splitlines (universal_newlines raw)))
    (source_lines_of (readline (universal_newlines raw)).2) = [].
Proof.
  rewrite lines_to_write_filter. apply filter_none.
  intros l [_ Hl]%list_elem_of_filter Hnew. apply Hnew.
  rewrite elem_of_list_to_set. by apply splitlines_after_readline.
Qed.

End Idempotence.

Section Merge.

Implicit Types (fs : FS) (p q r : path) (raw old : str).

(** A run of [append_to_file] that reports no new line changed nothing
    after the parent directory was made. *)
Lemma append_to_file_no_write nl source destination fs fs' report :
  append_to_file nl source destination fs = (fs', Ok report) →
  (∀ count, report ≠ Appended count) →
  mkdir_parents (parent destination) fs = (fs', Ok ()).
Proof.
  unfold append_to_file, mbind, M_bind, query, ask, mret, M_ret.
  destruct (mkdir_parents (parent destination) fs) as [fs0 [[]|e]];
    [|done].
  destruct (read_file_content fs0 source true) as [body|e]; [|done].
  case_bool_decide; [by intros [= <- <-]|].
  destruct (exists_ fs0 destination);
    [destruct (read_file_content fs0 destination false); [|done]|];
    (case_bool_decide; [by intros [= <- <-]|]);
    repeat match goal with
           | |- context [let (_, _) := ?x in _] => destruct x as [? [?|?]]
           end;
    intros [= <- <-] Hrep; try done; exfalso; by eapply Hrep.
Qed.

Lemma read_file_content_Ok fs p skip text :
  read_file_content fs p skip = Ok text ↔
  ∃ raw, open_read fs p = Ok raw
         ∧ text = if skip then (readline (universal_newlines raw)).2
                  else universal_newlines raw.
Proof.
  unfold read_file_content. destruct (open_read fs p) as [raw|e]; cbn.
  - split; [intros [= <-]; eauto | by intros (raw' & [= <-] & ->)].
  - split; [done | by intros (raw' & ? & _)].
Qed.

(** A run is known from its report once its final filesystem is named
    after it. *)
Lemma run_by_report {A} (run : FS * result A) (r : result A) :
  run.2 = r → run = (run.1, r).
Proof. intros <-. by destruct run. Qed.

End Merge.

(** * The merge is idempotent (C2) *)

(** C2: after a run of [append_to_file] that succeeded, a second run with
    the same source and destination leaves the filesystem, and so the
    content of the destination, as the first run left it, and reports that
    there is nothing to append or that the content is up to date. *)
Theorem append_to_file_idempotent (nl : linesep) (source destination : path)
    (fs fs1 : FS) (report : AppendReport) :
  append_to_file nl source destination fs = (fs1, Ok report) →
  ∃ report',
    append_to_file nl source destination fs1 = (fs1, Ok report')
    ∧ (report' = NothingToAppend ∨ report' = UpToDate).
Proof.
  intros Hrun.
  assert ((∀ count, report ≠ Appended count) →
          ∃ report',
            append_to_file nl source destination fs1 = (fs1, Ok report')
            ∧ (report' = NothingToAppend ∨ report' = UpToDate)) as Hquiet.
  { intros Hrep.
    pose proof (append_to_file_no_write _ _ _ _ _ _ Hrun Hrep) as Hmk.
    assert (mkdir_parents (parent destination) fs1 = (fs1, Ok ())) as Hmk1.
    { apply mkdir_parents_is_dir. by eapply mkdir_parents_Ok. }
    exists report. split.
    - unfold append_to_file, mbind, M_bind in *.
      rewrite Hmk in Hrun. by rewrite Hmk1.
    - destruct report; [by left | by right | by destruct (Hrep count)]. }
  destruct report as [| |count]; [by apply Hquiet..|]. clear Hquiet.
  apply append_to_file_Appended in Hrun
    as (fs0 & raw & r & old & Hmk & Hsrc & Hwalk & Hne & Hr & Hlines & _ & ->).
  set (body := (readline (universal_newlines raw)).2) in *.
  set (lines := lines_to_write _ _) in *.
  set (new := old ++ translate_newlines nl (written_text old body lines)).
  assert (fs0 !! r = Some (File old) ∨ fs0 !! r = None) as Hr2 by tauto.
  pose proof (insert_file_extends fs0 r old new Hr2) as Hext.
  (* the parent directory is there *)
  assert (mkdir_parents (parent destination) (<[r := File new]> fs0)
          = (<[r := File new]> fs0, Ok ())) as Hmk2.
  { apply mkdir_parents_is_dir. eapply is_dir_mono; [done|].
    by eapply mkdir_parents_Ok. }
  (* the source is as it was *)
  assert (open_read (<[r := File new]> fs0) source = Ok raw) as Hsrc2.
  { apply open_read_Ok in Hsrc as (rs & Hws & [Hns Hrs]%entry_File).
    assert (rs ≠ r) as Hdiff.
    { intros ->. apply Hlines.
      assert (old = raw) as -> by (destruct Hr as [? | [? _]]; congruence).
      apply lines_to_write_same_file. }
    apply open_read_Ok. exists rs. split.
    - eapply walk_mono; [done..|].
      intros t. rewrite (proj2 (entry_File _ rs raw)); [done|].
      by rewrite lookup_insert_ne.
    - apply entry_File. by rewrite lookup_insert_ne. }
  (* the destination holds what was written *)
  pose proof (open_read_insert fs0 destination r old new Hwalk Hne Hr2)
    as Hdst2.
  assert (exists_ (<[r := File new]> fs0) destination = true) as Hex2.
  { unfold exists_.
    apply open_read_Ok in Hdst2 as (r' & Hw' & Hr').
    by rewrite (stat_realpath _ _ _ Hw'), Hr'. }
  assert (source_lines_of body ≠ []) as Hsl.
  { intros Hnil. apply Hlines. unfold lines. by rewrite Hnil. }
  exists UpToDate. split; [|by right].
  unfold append_to_file, mbind, M_bind, query, ask.
  rewrite Hmk2. unfold read_file_content. rewrite Hsrc2.
  cbn [result_bind mbind]. fold body.
  rewrite bool_decide_eq_false_2 by done.
  rewrite Hex2, Hdst2. cbn [result_bind mbind].
  unfold mret at 1, M_ret at 1.
  rewrite bool_decide_eq_true_2; [done|].
  by apply lines_to_write_after_write.
Qed.

Lemma append_to_file_idempotent_witness :
  let fs1 := (append_to_file PosixNewline bashrc_source bashrc_destination
                merge_fs).1 in
  ∃ report',
    append_to_file PosixNewline bashrc_source bashrc_destination fs1
    = (fs1, Ok report')
    ∧ (report' = NothingToAppend ∨ report' = UpToDate).
Proof.
  apply (append_to_file_idempotent PosixNewline bashrc_source
           bashrc_destination merge_fs _ (Appended 1)).
  apply run_by_report. vm_compute. reflexivity.
Defined.

(** * What is written (C7) *)

(** C7: when [append_to_file] writes new lines, the destination becomes its
    old content followed by a separator, the new lines joined by newlines
    and a final part, written in text mode.  The separator is one newline
    if the destination was not empty and did not end with a newline, and
    nothing otherwise; the final part is one newline if the source content
    after the marker line ended with a newline, and nothing otherwise.
    The old content is the one found once the parent directories exist,
    empty for a destination that was absent. *)
Theorem append_to_file_written (nl : linesep) (source destination : path)
    (fs fs' : FS) (count : nat) :
  append_to_file nl source destination fs = (fs', Ok (Appended count)) →
  ∃ fs0 r old body lines sep fin,
    mkdir_parents (parent destination) fs = (fs0, Ok ())
    ∧ read_file_content fs0 source true = Ok body
    ∧ realpath fs0 destination = Ok r
    ∧ (fs0 !! r = Some (File old) ∨ (fs0 !! r = None ∧ old = []))
    ∧ lines = lines_to_write (list_to_set (splitlines (universal_newlines old)))
                (source_lines_of body)
    ∧ lines ≠ [] ∧ count = length lines
    ∧ fs' = <[r := File (old ++ translate_newlines nl sep
                             ++ translate_newlines nl (join [LF] lines)
                             ++ translate_newlines nl fin)]> fs0
    ∧ (sep = [LF] ∨ sep = [])
    ∧ (sep = [LF] ↔ (0 < length old)%nat ∧ last old ≠ Some LF)
    ∧ (fin = [LF] ∨ fin = [])
    ∧ (fin = [LF] ↔ endswith_newline body = true).
Proof.
  intros (fs0 & raw & r & old & Hmk & Hsrc & Hwalk & Hne & Hr & Hlines & Hcount
          & ->)%append_to_file_Appended.
  set (body := (readline (universal_newlines raw)).2) in *.
  exists fs0, r, old, body, (lines_to_write
    (list_to_set (splitlines (universal_newlines old))) (source_lines_of body)),
    (if decide (old ≠ [] ∧ last old ≠ Some LF) then [LF] else []),
    (if endswith_newline body then [LF] else []).
  split_and!; try done.
  - apply read_file_content_Ok. eauto.
  - unfold written_text. by rewrite !translate_newlines_app.
  - case_decide; auto.
  - case_decide as Hsep; split; try done.
    + intros _. destruct Hsep as [Hold Hlast]. split; [|done].
      destruct old; [done | cbn; lia].
    + intros [Hlen Hlast]. destruct Hsep. split; [|done].
      intros ->. cbn in Hlen. lia.
  - destruct (endswith_newline body); auto.
  - by destruct (endswith_newline body).
Qed.

Lemma append_to_file_written_witness :
  let fs' := (append_to_file PosixNewline bashrc_source bashrc_destination
                merge_fs).1 in
  ∃ fs0 r old body lines sep fin,
    mkdir_parents (parent bashrc_destination) merge_fs = (fs0, Ok ())
    ∧ read_file_content fs0 bashrc_source true = Ok body
    ∧ realpath fs0 bashrc_destination = Ok r
    ∧ (fs0 !! r = Some (File old) ∨ (fs0 !! r = None ∧ old = []))
    ∧ lines = lines_to_write (list_to_set (splitlines (universal_newlines old)))
                (source_lines_of body)
    ∧ lines ≠ [] ∧ 1%nat = length lines
    ∧ fs' = <[r := File (old ++ translate_newlines PosixNewline sep
                             ++ translate_newlines PosixNewline (join [LF] lines)
                             ++ translate_newlines PosixNewline fin)]> fs0
    ∧ (sep = [LF] ∨ sep = [])
    ∧ (sep = [LF] ↔ (0 < length old)%nat ∧ last old ≠ Some LF)
    ∧ (fin = [LF] ∨ fin = [])
    ∧ (fin = [LF] ↔ endswith_newline body = true).
Proof.
  apply (append_to_file_written PosixNewline bashrc_source bashrc_destination
           merge_fs _ 1).
  apply run_by_report. vm_compute. reflexivity.
Defined.

(** The merged destination of the example: the old line, the separating
    newline, the new line and the final newline. *)
Example append_to_file_merge_example :
  open_read (append_to_file PosixNewline bashrc_source bashrc_destination
               merge_fs).1 bashrc_destination
  = Ok (lit "export A=1" ++ [LF] ++ lit "alias ll=ls" ++ [LF]).
Proof. vm_compute. reflexivity. Qed.

(** * A source with an empty body (C5) *)

(** C5, as stated, fails: the parent directories of the destination are
    made before the source is read, also when its body is empty. *)
Lemma append_to_file_empty_body_makes_directories :
  let run := append_to_file PosixNewline config_source config_destination
               marker_only_fs in
  source_lines_of (readline (universal_newlines marker_only_file)).2 = []
  ∧ run.2 = Ok NothingToAppend
  ∧ marker_only_fs !! ["home"; "u"; ".config"; "app"] = None
  ∧ run.1 !! ["home"; "u"; ".config"; "app"] = Some Dir
  ∧ run.1 ≠ marker_only_fs.
Proof.
  split_and!; try (vm_compute; reflexivity).
  intros Heq. apply (f_equal (λ m : FS, m !! ["home"; "u"; ".config"; "app"])) in Heq.
  vm_compute in Heq. discriminate.
Qed.

(** C5, amended: for a source whose body has no non-blank line,
    [append_to_file] writes to no file and removes nothing: every entry of
    the filesystem stays as it was, except that missing parent directories
    of the destination are created; it reports that there is nothing to
    append whenever those directories could be made, and changes nothing at
    all when the parent directory was there. *)
Theorem append_to_file_empty_body (nl : linesep) (source destination : path)
    (fs : FS) (raw : str) :
  open_read fs source = Ok raw →
  source_lines_of (readline (universal_newlines raw)).2 = [] →
  ∃ fs' made,
    mkdir_parents (parent destination) fs = (fs', made)
    ∧ append_to_file nl source destination fs
      = (fs', _ ← made; Ok NothingToAppend)
    ∧ only_new_dirs fs fs'
    ∧ (is_dir fs (parent destination) = true →
       fs' = fs ∧ made = Ok ()).
Proof.
  intros Hsrc Hbody.
  destruct (mkdir_parents (parent destination) fs) as [fs' made] eqn:Hmk.
  exists fs', made.
  pose proof (mkdir_parents_frame _ _ _ _ Hmk) as Hframe.
  split_and!; try done.
  - unfold append_to_file, mbind at 1, M_bind. rewrite Hmk.
    destruct made as [[]|e]; [|done].
    unfold mbind, M_bind, query, read_file_content.
    rewrite (open_read_only_new_dirs _ _ _ _ Hframe Hsrc).
    cbn [result_bind mbind]. by rewrite bool_decide_eq_true_2.
  - intros Hdir. rewrite (mkdir_parents_is_dir _ _ Hdir) in Hmk.
    by simplify_eq.
Qed.

Lemma append_to_file_empty_body_witness :
  ∃ fs' made,
    mkdir_parents (parent config_destination) marker_only_fs = (fs', made)
    ∧ append_to_file PosixNewline config_source config_destination
        marker_only_fs
      = (fs', _ ← made; Ok NothingToAppend)
    ∧ only_new_dirs marker_only_fs fs'
    ∧ (is_dir marker_only_fs (parent config_destination) = true →
       fs' = marker_only_fs ∧ made = Ok ()).
Proof.
  apply (append_to_file_empty_body PosixNewline config_source
           config_destination marker_only_fs marker_only_file).
  - vm_compute. reflexivity.
  - vm_compute. reflexivity.
Defined.

(** * A directory at the destination of a merge (C10) *)

(** C10, as stated, fails: with a source whose body is empty the run ends
    before the destination is looked at, and no error is raised. *)
Lemma append_to_file_directory_no_error :
  let fs := directory_destination_fs marker_only_file in
  is_dir fs bashrc_destination = true
  ∧ (append_to_file PosixNewline bashrc_source bashrc_destination fs).2
    = Ok NothingToAppend.
Proof. split; vm_compute; reflexivity. Qed.

(** C10, amended: when the destination is a directory, [append_to_file]
    never changes the filesystem, so the directory and what it holds stay;
    and when the source can be read and its body has a non-blank line, the
    run raises [IsADirectoryError], from reading the destination. *)
Theorem append_to_file_directory_destination (nl : linesep)
    (source destination : path) (fs : FS) :
  is_dir fs destination = true →
  (append_to_file nl source destination fs).1 = fs
  ∧ ∀ raw,
      open_read fs source = Ok raw →
      source_lines_of (readline (universal_newlines raw)).2 ≠ [] →
      (append_to_file nl source destination fs).2 = Raise IsADirectoryError.
Proof.
  intros Hdir.
  pose proof (mkdir_parents_is_dir _ _ (is_dir_parent _ _ Hdir)) as Hmk.
  assert (exists_ fs destination = true) as Hex.
  { unfold exists_, is_dir in *. by destruct (stat fs destination). }
  assert (open_read fs destination = Raise IsADirectoryError) as Hdst.
  { apply is_dir_spec in Hdir as (r & Hwalk & Hr).
    unfold open_read, realpath in *. rewrite Hwalk. cbn. by rewrite Hr. }
  assert (append_to_file nl source destination fs
          = (fs, match open_read fs source with
                 | Ok raw =>
                     if bool_decide
                          (source_lines_of (readline (universal_newlines raw)).2
                           = [])
                     then Ok NothingToAppend
                     else Raise IsADirectoryError
                 | Raise e => Raise e
                 end)) as ->.
  { unfold append_to_file, mbind at 1, M_bind. rewrite Hmk.
    unfold mbind, M_bind, query, ask, read_file_content.
    destruct (open_read fs source) as [raw|e]; cbn [result_bind mbind];
      [|done].
    case_bool_decide; [done|].
    rewrite Hex, Hdst. done. }
  split; [done|]. intros raw -> Hbody. cbn [snd].
  by rewrite bool_decide_eq_false_2.
Qed.

Lemma append_to_file_directory_destination_witness :
  let fs := directory_destination_fs merge_source_file in
  (append_to_file PosixNewline bashrc_source bashrc_destination fs).1 = fs
  ∧ ∀ raw,
      open_read fs bashrc_source = Ok raw →
      source_lines_of (readline (universal_newlines raw)).2 ≠ [] →
      (append_to_file PosixNewline bashrc_source bashrc_destination fs).2
      = Raise IsADirectoryError.
Proof.
  apply (append_to_file_directory_destination PosixNewline bashrc_source
           bashrc_destination (directory_destination_fs merge_source_file)).
  vm_compute. reflexivity.
Defined.

(** * The platform (C9) *)

(** C9: [detect_os] lowercases the identifier of the host and maps
    ["linux"] to [Linux], ["darwin"] to [MacOS] and ["windows"] to
    [Windows]; for any other identifier it raises the error for an
    unsupported system, and [main] then ends with that error and the
    filesystem untouched.  [detect_os] is a function of the identifier
    alone: it neither reads nor changes the filesystem. *)
Theorem detect_os_spec (lower : str → str) (rglob : FS → path → list path)
    (host : Host) (fs : FS) :
  let system := lower (platform_system host) in
  (system = lit "linux" → detect_os lower (platform_system host) = Ok Linux)
  ∧ (system = lit "darwin" → detect_os lower (platform_system host) = Ok MacOS)
  ∧ (system = lit "windows" →
     detect_os lower (platform_system host) = Ok Windows)
  ∧ (system ≠ lit "linux" → system ≠ lit "darwin" → system ≠ lit "windows" →
     detect_os lower (platform_system host) = Raise (UnsupportedSystem system)
     ∧ main lower rglob host fs = (fs, Raise (UnsupportedSystem system))).
Proof.
  intros system. unfold main, mbind, M_bind, query, detect_os. fold system.
  split_and!.
  - intros ->. done.
  - intros ->. done.
  - intros ->. done.
  - intros H1 H2 H3. by rewrite !decide_False by done.
Qed.

Example detect_os_examples :
  detect_os ascii_lower (lit "Linux") = Ok Linux
  ∧ detect_os ascii_lower (lit "Darwin") = Ok MacOS
  ∧ detect_os ascii_lower (lit "Windows") = Ok Windows
  ∧ detect_os ascii_lower (lit "FreeBSD")
    = Raise (UnsupportedSystem (lit "freebsd"))
  ∧ (main ascii_lower (λ _ _, []) unsupported_host merge_fs).2
    = Raise (UnsupportedSystem (lit "freebsd")).
Proof. split_and!; vm_compute; reflexivity. Qed.

Lemma install_dotfiles_declined_witness :
  install_dotfiles ascii_lower (λ _ _, []) declining_host Linux merge_fs
  = (merge_fs, Ok AbortedByUser)
  ∧ (detect_os ascii_lower (platform_system declining_host) = Ok Linux →
     main ascii_lower (λ _ _, []) declining_host merge_fs
     = (merge_fs, Ok AbortedByUser)).
Proof.
  apply (install_dotfiles_declined ascii_lower (λ _ _, []) declining_host
           Linux (lit "Y") merge_fs).
  - reflexivity.
  - vm_compute. discriminate.
Defined.

(** The prompt at the end of the input: [input()] raises and nothing was
    written. *)
Lemma install_dotfiles_end_of_input (lower : str → str)
    (rglob : FS → path → list path) (host : Host)
    (os_name : OperatingSystem) (fs : FS) :
  stdin_line host = None →
  install_dotfiles lower rglob host os_name fs = (fs, Raise EOFError).
Proof. intros Hin. unfold install_dotfiles. by rewrite Hin. Qed.

(** * The symlink installer (C3) *)

(** C3 at a dangling symlink: [Path.exists] follows the symlink and is
    false, so the symlink is not removed, and [os.symlink] raises
    [FileExistsError]; the filesystem stays as it was, the old symlink
    included. *)
Theorem create_symlink_dangling_destination (source destination : path)
    (fs : FS) (old_target target : path) :
  is_dir fs (parent destination) = true →
  lstat fs destination = Ok (Link old_target) →
  exists_ fs destination = false →
  path_resolve fs source = Ok target →
  create_symlink source destination true fs = (fs, Raise FileExistsError).
Proof.
  intros Hdir Hlink Hex Hsrc.
  unfold create_symlink, mbind, M_bind, query, ask.
  rewrite (mkdir_parents_is_dir _ _ Hdir), Hex. cbn [andb].
  unfold mret at 1, M_ret at 1. rewrite Hsrc. unfold os_symlink.
  unfold lstat in Hlink.
  destruct (lrealpath fs destination) as [r|e]; [|done].
  cbn in Hlink. by destruct (entry fs r).
Qed.

Lemma create_symlink_dangling_destination_witness :
  create_symlink vimrc_source vimrc_destination true dangling_destination_fs
  = (dangling_destination_fs, Raise FileExistsError).
Proof.
  apply (create_symlink_dangling_destination vimrc_source vimrc_destination
           dangling_destination_fs ["home"; "u"; "old"; ".vimrc"]
           vimrc_source);
    vm_compute; reflexivity.
Defined.

(** The other kinds of prior entry are replaced by the symlink. *)
Example create_symlink_replaces_entries :
  let installed (prior : list (path * node)) :=
    (create_symlink vimrc_source vimrc_destination true
       (list_to_map ((vimrc_source, File vimrc_file) :: prior ++ repo_and_home))).1
  in
  installed [] !! vimrc_destination = Some (Link vimrc_source)
  ∧ installed [(vimrc_destination, File (lit "old"))] !! vimrc_destination
    = Some (Link vimrc_source)
  ∧ installed [(vimrc_destination, Link ["home"])] !! vimrc_destination
    = Some (Link vimrc_source)
  ∧ installed [(vimrc_destination, Dir);
               (vimrc_destination ++ ["colors.vim"], File (lit "hi"))]
      !! vimrc_destination
    = Some (Link vimrc_source)
  ∧ installed [(vimrc_destination, Dir);
               (vimrc_destination ++ ["colors.vim"], File (lit "hi"))]
      !! (vimrc_destination ++ ["colors.vim"])
    = None.
Proof. split_and!; vm_compute; reflexivity. Qed.

(** * The copy installer (C4) *)

Lemma open_truncate_frame (p : path) (fs fs1 : FS) (r : result path) :
  open_truncate p fs = (fs1, r) →
  match r with
  | Ok out =>
      fs1 = <[out := File []]> fs
      ∧ ((∃ old, fs !! out = Some (File old)) ∨ fs !! out = None)
  | Raise _ => fs1 = fs
  end.
Proof.
  unfold open_truncate. destruct (realpath fs p) as [out|e]; [|by intros [= <- <-]].
  destruct (entry fs out) as [[old| |]|] eqn:Hout; intros [= <- <-]; auto.
  - apply entry_File in Hout as [_ Hout]. eauto.
  - apply entry_None in Hout as [_ Hout]. eauto.
Qed.

(** C4: when the destination is a directory, [copy_file] leaves it a
    directory, for every source and filesystem: nothing in [copy_file]
    removes a prior entry, and [shutil.copy2] writes below the directory. *)
Theorem copy_file_keeps_directory (source destination : path) (fs : FS) :
  is_dir fs destination = true →
  is_dir (copy_file source destination fs).1 destination = true.
Proof.
  intros Hdir.
  pose proof (mkdir_parents_is_dir _ _ (is_dir_parent _ _ Hdir)) as Hmk.
  unfold copy_file, mbind at 1, M_bind. rewrite Hmk.
  unfold shutil_copy2, mbind, M_bind, ask, query, raise. rewrite Hdir.
  destruct (samefile fs source _); [done|].
  destruct (open_read fs source) as [data|e]; [|done].
  destruct (open_truncate _ fs) as [fs1 [out|e]] eqn:Hopen;
    apply open_truncate_frame in Hopen; [|by subst].
  destruct Hopen as [-> Hold].
  unfold write_raw. cbn [fst]. rewrite alter_append_insert.
  eapply is_dir_mono; [|done].
  destruct Hold as [[old Hold] | Hold].
  - apply (insert_file_extends _ _ old). by left.
  - apply (insert_file_extends _ _ []). by right.
Qed.

Lemma copy_file_keeps_directory_witness :
  is_dir (copy_file windows_vimrc_source vimrc_destination
            directory_at_copy_destination_fs).1 vimrc_destination = true.
Proof.
  apply (copy_file_keeps_directory windows_vimrc_source vimrc_destination
           directory_at_copy_destination_fs).
  vm_compute. reflexivity.
Defined.

(** At the example: the copy lands inside the directory, under the name
    of the source, and what the directory held stays. *)
Example copy_file_into_directory :
  let run := copy_file windows_vimrc_source vimrc_destination
               directory_at_copy_destination_fs in
  is_dir directory_at_copy_destination_fs vimrc_destination = true
  ∧ run.2 = Ok ()
  ∧ run.1 !! vimrc_destination = Some Dir
  ∧ run.1 !! (vimrc_destination ++ ["colors.vim"]) = Some (File (lit "hi"))
  ∧ run.1 !! (vimrc_destination ++ [".vimrc"]) = Some (File vimrc_file).
Proof. split_and!; vm_compute; reflexivity. Qed.

(** A regular file at the destination is overwritten by the copy. *)
Example copy_file_replaces_file :
  (copy_file windows_vimrc_source vimrc_destination
     (list_to_map ((windows_vimrc_source, File vimrc_file)
                   :: (vimrc_destination, File (lit "old")) :: repo_and_home))).1
    !! vimrc_destination
  = Some (File vimrc_file).
Proof. vm_compute. reflexivity. Qed.
